(** * tiflow: the per-table event sink and the sink configuration

  A shallow embedding of [cdc/sink/tablesink] (the event table sink:
  [AppendRowChangedEvents], [UpdateResolvedTs], [GetCheckpointTs], [Close],
  [AsyncClose], [freeze], [markAsClosed]) and of [pkg/config/sink.go]
  ([applyParameterBySinkURI], [validateAndAdjustSinkURI],
  [validateAndAdjust], [CheckCompatibilityWithSinkURI]).

  Go values are modelled as follows: [uint64] timestamps as [N], [int] as
  [Z], slices as lists, [map[string]string] as [gmap string string],
  a [*T] pointer as an optional cell carrying its address, a Go [error]
  result as an [option] ([None] is [nil]), a panic as a constructor of its
  own in the result type. *)

From stdpp Require Import gmap strings list sorting.
From Equations Require Import Equations.

Local Open Scope N_scope.

(** ** sort.Search of the Go standard library *)

Module sort.

(** [int(uint(i+j) >> 1)], the midpoint that [sort.Search] probes. *)
Definition midpoint (i j : nat) : nat := Nat.shiftr (i + j) 1.

Global Arguments midpoint : simpl never.

(** The loop of [sort.Search]: [for i < j { h := mid; if !f(h) { i = h+1 }
    else { j = h } }; return i].  The probe [f] answers [None] where the Go
    closure would panic (an index out of range), and the panic aborts the
    search. *)
Equations? search_loop (f : nat -> option bool) (i j : nat) : option nat
  by wf (j - i)%nat lt :=
  search_loop f i j with decide (i < j)%nat => {
    | left _ with f (midpoint i j) => {
        | Some true => search_loop f i (midpoint i j)
        | Some false => search_loop f (midpoint i j + 1)%nat j
        | None => None }
    | right _ => Some i }.
Proof.
  all: assert (i <= midpoint i j < j)%nat as Hmid
    by (unfold midpoint; rewrite Nat.shiftr_div_pow2; change (2 ^ 1)%nat with 2%nat;
        split; [apply Nat.div_le_lower_bound | apply Nat.Div0.div_lt_upper_bound]; lia).
  all: lia.
Qed.

Definition Search (n : nat) (f : nat -> option bool) : option nat :=
  search_loop f 0%nat n.

End sort.

(** ** cdc/model: timestamps and events *)

Module model.

(** [model.Ts] is a [uint64] (the spec: a "monotonic unsigned 64-bit logical
    clock"); timestamps are only compared, never added. *)
Definition Ts : Type := N.

(** Modelled from the spec: [model.ResolvedTs] is
    "{ ts: Ts, mode: Normal | BatchResolved, batchId: u64 }" (package
    [cdc/model] is not among the sources).  The field [Ts] is called [Ts_of],
    its name being taken by the type. *)
Inductive ResolvedMode : Type := NormalResolvedMode | BatchResolvedMode.

Record ResolvedTs : Type := mkResolvedTs {
  Mode : ResolvedMode;
  Ts_of : Ts;
  BatchID : N
}.

Definition mode_rank (m : ResolvedMode) : N :=
  match m with NormalResolvedMode => 0 | BatchResolvedMode => 1 end.

(** Modelled from the spec: the order of [model.ResolvedTs], "totally
    ordered by (ts, mode-rank, batchId)". *)
Definition compare (r r1 : ResolvedTs) : comparison :=
  match Ts_of r ?= Ts_of r1 with
  | Eq => match mode_rank (Mode r) ?= mode_rank (Mode r1) with
          | Eq => BatchID r ?= BatchID r1
          | c => c
          end
  | c => c
  end.

(** Modelled from the spec: [ResolvedTs.EqualOrGreater], the test of the
    order above that [UpdateResolvedTs] uses. *)
Definition EqualOrGreater (r r1 : ResolvedTs) : bool :=
  match compare r r1 with Lt => false | _ => true end.

(** [r] is strictly greater than [r1] in the order of the spec. *)
Definition Greater (r r1 : ResolvedTs) : Prop := compare r r1 = Gt.

(** [r] is less than or equal to [r1] in the order of the spec. *)
Definition LessOrEqual (r r1 : ResolvedTs) : Prop := compare r r1 <> Gt.

(** Modelled from the spec: [model.NewResolvedTs], a watermark in normal
    mode; the spec gives it no batch, the model takes batch 0. *)
Definition NewResolvedTs (t : Ts) : ResolvedTs :=
  {| Mode := NormalResolvedMode; Ts_of := t; BatchID := 0 |}.

(** Modelled from the spec: [model.RowChangedEvent], an "opaque payload
    with accessor commitTs()"; the payload is kept as a row number. *)
Record RowChangedEvent : Type := mkRow {
  StartTs : Ts;
  CommitTs : Ts;
  RowID : N
}.

End model.

Import model.

(** ** cdc/sink/dmlsink: the interfaces the table sink is generic in *)

Module dmlsink.

(** Modelled from the spec: [dmlsink.TableEvent], an event with the accessor
    [GetCommitTs] ([cdc/sink/dmlsink] is not among the sources; the table
    sink calls this method and no other). *)
Class TableEvent (E : Type) : Type := {
  GetCommitTs : E -> Ts
}.

(** Modelled from the spec: [dmlsink.Appender[E]], the strategy
    "append(buffer, events...) -> newBuffer". *)
Class Appender (E : Type) : Type := {
  Append : list E -> list RowChangedEvent -> list E
}.

#[export] Instance RowChangedEvent_TableEvent : TableEvent RowChangedEvent :=
  {| GetCommitTs := CommitTs |}.

(** Modelled from the spec: [dmlsink.RowChangeEventAppender], the
    single-row strategy (its source is not given): the rows are appended to
    the buffer in insertion order. *)
#[export] Instance RowChangeEventAppender : Appender RowChangedEvent :=
  {| Append := fun buffer rows => buffer ++ rows |}.

(** [dmlsink.CallbackableEvent[E]], with the fields [UpdateResolvedTs]
    fills in: the event and its acknowledgement callback.  The callback
    closes over the tracker and one ack id, so the model keeps the id.  The
    [SinkState] field is the address of the one state cell of the owning
    sink and carries no data of its own. *)
Record CallbackableEvent (E : Type) : Type := mkCallbackable {
  Event : E;
  Callback : N
}.
Global Arguments mkCallbackable {E} _ _.
Global Arguments Event {E} _.
Global Arguments Callback {E} _.

(** The error a backend reports; opaque to the table sink. *)
Definition backend_error : Type := string.

(** Modelled from the spec: [dmlsink.EventSink[E]], the backend, with
    "writeEvents(batch) -> result" and "dead() -> bool".  [WriteEvents] is
    external: the model takes its answer for every batch as given. *)
Record EventSink (E : Type) : Type := mkEventSink {
  WriteEvents : list (CallbackableEvent E) -> option backend_error;
  Dead : bool
}.
Global Arguments mkEventSink {E} _ _.
Global Arguments WriteEvents {E} _ _.
Global Arguments Dead {E} _.

End dmlsink.

Import dmlsink.

(** ** cdc/sink/tablesink/state *)

Module state.

(** Modelled from the spec: [state.TableSinkState], "one of Sinking,
    Stopping, Stopped.  Atomic", with the operations [Load] and
    [CompareAndSwap] that the table sink calls (the package is not among the
    sources). *)
Inductive TableSinkState : Type :=
| TableSinkSinking
| TableSinkStopping
| TableSinkStopped.

#[export] Instance TableSinkState_eq_dec : EqDecision TableSinkState.
Proof. solve_decision. Defined.

(** The state is an atomic cell; [Load] reads it. *)
Definition Load (cell : TableSinkState) : TableSinkState := cell.

(** [CompareAndSwap old new]: the new content of the cell and whether the
    swap happened. *)
Definition CompareAndSwap (old new cell : TableSinkState)
  : TableSinkState * bool :=
  if decide (cell = old) then (new, true) else (cell, false).

(** Position of a state on the path Sinking, Stopping, Stopped. *)
Definition rank (s : TableSinkState) : nat :=
  match s with
  | TableSinkSinking => 0
  | TableSinkStopping => 1
  | TableSinkStopped => 2
  end.

End state.

Import state.

(** ** cdc/sink/tablesink *)

Module tablesink.

(** *** The progress tracker *)

(** Modelled from the spec: the pending items of the progress tracker
    ([progress_tracker.go] is not among the sources). *)
Inductive pendingItem : Type :=
| EventPending (ackId : N)
| ResolvedMarker (resolvedTs : ResolvedTs).

(** Modelled from the spec: the progress tracker, "an ordered queue Q of
    pending items and an append-only acked set of ackIds", the frozen flag,
    the last marker enqueued and the frontier. *)
Record progressTracker : Type := mkTracker {
  queue : list pendingItem;
  acked : gset N;
  nextAckId : N;
  frozen : bool;
  lastMarker : option ResolvedTs;
  frontier : ResolvedTs
}.

(** Modelled from the spec: a new tracker is empty, its frontier is 0. *)
Definition newProgressTracker : progressTracker :=
  {| queue := []; acked := ∅; nextAckId := 0; frozen := false;
     lastMarker := None; frontier := NewResolvedTs 0 |}.

(** Modelled from the spec: "addEvent allocates a fresh monotonically
    increasing ackId, appends EventPending{ackId} to Q, and returns a handle".
    The handle is the id. *)
Definition addEvent (t : progressTracker) : progressTracker * N :=
  ({| queue := queue t ++ [EventPending (nextAckId t)];
      acked := acked t;
      nextAckId := N.succ (nextAckId t);
      frozen := frozen t;
      lastMarker := lastMarker t;
      frontier := frontier t |},
   nextAckId t).

(** Modelled from the spec: invoking a handle "inserts the id into acked". *)
Definition ack (id : N) (t : progressTracker) : progressTracker :=
  {| queue := queue t;
     acked := {[ id ]} ∪ acked t;
     nextAckId := nextAckId t;
     frozen := frozen t;
     lastMarker := lastMarker t;
     frontier := frontier t |}.

(** Modelled from the spec: "addResolvedTs(r) appends ResolvedMarker{r}
    provided that (a) freezeProcess has not been called, and (b) r is strictly
    greater than the last resolved marker enqueued"; otherwise the marker is
    dropped. *)
Definition addResolvedTs (r : ResolvedTs) (t : progressTracker)
  : progressTracker :=
  if frozen t then t
  else
    match lastMarker t with
    | Some l => if EqualOrGreater l r then t
                else {| queue := queue t ++ [ResolvedMarker r];
                        acked := acked t;
                        nextAckId := nextAckId t;
                        frozen := frozen t;
                        lastMarker := Some r;
                        frontier := frontier t |}
    | None => {| queue := queue t ++ [ResolvedMarker r];
                 acked := acked t;
                 nextAckId := nextAckId t;
                 frozen := frozen t;
                 lastMarker := Some r;
                 frontier := frontier t |}
    end.

(** Modelled from the spec: the pops of [advance], "as long as the head is
    either an EventPending whose id is in acked (drop from acked on pop) or a
    ResolvedMarker, in which case its timestamp is remembered as the new
    frontier". *)
Fixpoint advance_queue (q : list pendingItem) (a : gset N) (f : ResolvedTs)
  : list pendingItem * gset N * ResolvedTs :=
  match q with
  | [] => ([], a, f)
  | EventPending id :: rest =>
      if decide (id ∈ a) then advance_queue rest (a ∖ {[ id ]}) f
      else (q, a, f)
  | ResolvedMarker r :: rest => advance_queue rest a r
  end.

(** Modelled from the spec: [advance] "returns the current frontier". *)
Definition advance (t : progressTracker) : progressTracker * ResolvedTs :=
  let '(q, a, f) := advance_queue (queue t) (acked t) (frontier t) in
  ({| queue := q; acked := a; nextAckId := nextAckId t; frozen := frozen t;
      lastMarker := lastMarker t; frontier := f |}, f).

(** Modelled from the spec: [freezeProcess]; later markers are dropped. *)
Definition freezeProcess (t : progressTracker) : progressTracker :=
  {| queue := queue t; acked := acked t; nextAckId := nextAckId t;
     frozen := true; lastMarker := lastMarker t; frontier := frontier t |}.

(** Modelled from the spec: "checkClosed(dead) returns true iff Q is empty
    or dead == true.  When dead is true, the tracker additionally advances
    frontier to the last enqueued resolved marker". *)
Definition checkClosed (dead : bool) (t : progressTracker)
  : progressTracker * bool :=
  if dead then
    ({| queue := queue t; acked := acked t; nextAckId := nextAckId t;
        frozen := frozen t; lastMarker := lastMarker t;
        frontier := default (frontier t) (lastMarker t) |}, true)
  else (t, bool_decide (queue t = [])).

(** What the other actors do to the tracker while [waitClosed] is blocked:
    the backend fires an ack, or a checkpoint reader advances the tracker. *)
Inductive Interference : Type :=
| Acked (id : N)
| Advanced.

Definition interfere (i : Interference) (t : progressTracker)
  : progressTracker :=
  match i with
  | Acked id => ack id t
  | Advanced => fst (advance t)
  end.

(** Modelled from the spec: "waitClosed blocks (polling or condition
    variable) until checkClosed returns true".  [pending] is what the other
    actors still do to the tracker; [None] is a wait that never ends. *)
Fixpoint waitClosed (pending : list Interference) (dead : bool)
  (t : progressTracker) : option progressTracker :=
  let '(t1, closed) := checkClosed dead t in
  if closed then Some t1
  else
    match pending with
    | [] => None
    | i :: rest => waitClosed rest dead (interfere i t1)
    end.

(** *** The event table sink *)

(** [SinkInternalError{err}]. *)
Inductive sink_error : Type :=
| SinkInternalError (err : backend_error).

Section EventTableSink.

Context {E : Type} `{TableEvent E} `{Appender E}.

(** [EventTableSink[E, P]].  The appender [P] is the [Appender E] instance.
    [changefeedID] and [span] only label log lines and are left out; the
    rows counter counts whole rows as a natural number (the prometheus
    counter behind it holds a [float64], whose arithmetic is outside the
    model).  The fields [progressTracker] and [state]
    are called [tracker] and [sinkState], their names being taken by the
    type and by the package. *)
Record EventTableSink : Type := mkSink {
  startTs : Ts;
  maxResolvedTs : ResolvedTs;
  backendSink : EventSink E;
  tracker : progressTracker;
  eventBuffer : list E;
  sinkState : TableSinkState;
  metricsTableSinkTotalRows : N
}.

Definition set_maxResolvedTs (r : ResolvedTs) (e : EventTableSink)
  : EventTableSink :=
  mkSink (startTs e) r (backendSink e) (tracker e) (eventBuffer e)
         (sinkState e) (metricsTableSinkTotalRows e).

Definition set_backendSink (b : EventSink E) (e : EventTableSink)
  : EventTableSink :=
  mkSink (startTs e) (maxResolvedTs e) b (tracker e) (eventBuffer e)
         (sinkState e) (metricsTableSinkTotalRows e).

Definition set_tracker (t : progressTracker) (e : EventTableSink)
  : EventTableSink :=
  mkSink (startTs e) (maxResolvedTs e) (backendSink e) t (eventBuffer e)
         (sinkState e) (metricsTableSinkTotalRows e).

Definition set_eventBuffer (b : list E) (e : EventTableSink)
  : EventTableSink :=
  mkSink (startTs e) (maxResolvedTs e) (backendSink e) (tracker e) b
         (sinkState e) (metricsTableSinkTotalRows e).

Definition set_sinkState (s : TableSinkState) (e : EventTableSink)
  : EventTableSink :=
  mkSink (startTs e) (maxResolvedTs e) (backendSink e) (tracker e)
         (eventBuffer e) s (metricsTableSinkTotalRows e).

Definition set_metrics (n : N) (e : EventTableSink) : EventTableSink :=
  mkSink (startTs e) (maxResolvedTs e) (backendSink e) (tracker e)
         (eventBuffer e) (sinkState e) n.

(** [New]. *)
Definition New (startTs : Ts) (backendSink : EventSink E)
  (totalRowsCounter : N) : EventTableSink :=
  {| startTs := startTs;
     maxResolvedTs := NewResolvedTs 0;
     backendSink := backendSink;
     tracker := newProgressTracker;
     eventBuffer := [];
     sinkState := TableSinkSinking;
     metricsTableSinkTotalRows := totalRowsCounter |}.

(** [AppendRowChangedEvents]. *)
Definition AppendRowChangedEvents (rows : list RowChangedEvent)
  (e : EventTableSink) : EventTableSink :=
  let e := set_eventBuffer (Append (eventBuffer e) rows) e in
  set_metrics (metricsTableSinkTotalRows e + N.of_nat (length rows)) e.

(** The calls [UpdateResolvedTs] makes on its collaborators, in order. *)
Inductive Call : Type :=
| CallAddEvent (ackId : N)
| CallAddResolvedTs (resolvedTs : ResolvedTs)
| CallWriteEvents (batch : list (CallbackableEvent E)).

(** What a call of [UpdateResolvedTs] does: it panics, or it returns an
    error value ([None] is [nil]) having left the sink in a new state and
    made some calls. *)
Inductive UpdateResult : Type :=
| Panicked
| Returned (e : EventTableSink) (calls : list Call) (err : option sink_error).

(** The closure given to [sort.Search]:
    [e.eventBuffer[i].GetCommitTs() > resolvedTs.Ts]; indexing outside the
    buffer panics. *)
Definition commitTsAfter (resolvedTs : ResolvedTs) (buffer : list E)
  (i : nat) : option bool :=
  ev ← buffer !! i; Some (bool_decide (Ts_of resolvedTs < GetCommitTs ev)).

(** The loop over [resolvedEvents]: one [addEvent] per event, in order. *)
Fixpoint wrapEvents (resolvedEvents : list E) (t : progressTracker)
  : progressTracker * list (CallbackableEvent E) :=
  match resolvedEvents with
  | [] => (t, [])
  | ev :: rest =>
      let '(t1, callback) := addEvent t in
      let '(t2, ces) := wrapEvents rest t1 in
      (t2, {| Event := ev; Callback := callback |} :: ces)
  end.

(** [UpdateResolvedTs].  Slicing [e.eventBuffer[:i]] past the buffer panics
    (never reached: [sort.Search] answers an index within the buffer). *)
Definition UpdateResolvedTs (resolvedTs : ResolvedTs) (e : EventTableSink)
  : UpdateResult :=
  if EqualOrGreater (maxResolvedTs e) resolvedTs then Returned e [] None
  else
    let e := set_maxResolvedTs resolvedTs e in
    match sort.Search (length (eventBuffer e))
                      (commitTsAfter resolvedTs (eventBuffer e)) with
    | None => Panicked
    | Some i =>
        if decide (i = 0%nat) then
          let e := set_tracker (addResolvedTs resolvedTs (tracker e)) e in
          Returned e [CallAddResolvedTs resolvedTs; CallWriteEvents []]
                   (SinkInternalError <$> WriteEvents (backendSink e) [])
        else if decide (length (eventBuffer e) < i)%nat then Panicked
        else
          let resolvedEvents := take i (eventBuffer e) in
          let e := set_eventBuffer (drop i (eventBuffer e)) e in
          let '(t, resolvedCallbackableEvents) :=
            wrapEvents resolvedEvents (tracker e) in
          let e := set_tracker (addResolvedTs resolvedTs t) e in
          Returned e
            ((CallAddEvent <$> (Callback <$> resolvedCallbackableEvents))
             ++ [CallAddResolvedTs resolvedTs;
                 CallWriteEvents resolvedCallbackableEvents])
            (SinkInternalError <$>
               WriteEvents (backendSink e) resolvedCallbackableEvents)
    end.

(** The sink after [UpdateResolvedTs], when the call returns. *)
Definition updated (resolvedTs : ResolvedTs) (e : EventTableSink)
  : EventTableSink :=
  match UpdateResolvedTs resolvedTs e with
  | Returned e' _ _ => e'
  | Panicked => e
  end.

(** [GetCheckpointTs] and [markAsClosed] call each other, and [markAsClosed]
    retries its compare-and-swap in a loop; [fuel] bounds the depth of the
    calls and the number of retries, [None] is fuel that ran out. *)
Fixpoint GetCheckpointTs_fuel (fuel : nat) (e : EventTableSink)
  : option (EventTableSink * ResolvedTs) :=
  match fuel with
  | O => None
  | S fuel =>
      e1 ← (if decide (Load (sinkState e) = TableSinkStopping) then
              let '(t, closed) :=
                checkClosed (Dead (backendSink e)) (tracker e) in
              let e := set_tracker t e in
              if closed then fst <$> markAsClosed_fuel fuel e else Some e
            else Some e);
      let '(t, ts) := advance (tracker e1) in
      Some (set_tracker t e1, ts)
  end
with markAsClosed_fuel (fuel : nat) (e : EventTableSink)
  : option (EventTableSink * bool) :=
  match fuel with
  | O => None
  | S fuel =>
      let currentState := Load (sinkState e) in
      if decide (currentState = TableSinkStopped) then Some (e, false)
      else
        let '(cell, swapped) :=
          CompareAndSwap currentState TableSinkStopped (sinkState e) in
        let e := set_sinkState cell e in
        if swapped then
          r ← GetCheckpointTs_fuel fuel e; Some (fst r, true)
        else markAsClosed_fuel fuel e
  end.

(** The loop of [freeze], after the tracker was frozen. *)
Fixpoint freeze_loop (fuel : nat) (e : EventTableSink)
  : option EventTableSink :=
  match fuel with
  | O => None
  | S fuel =>
      let currentState := Load (sinkState e) in
      if decide (currentState = TableSinkStopping
                 ∨ currentState = TableSinkStopped) then Some e
      else
        let '(cell, swapped) :=
          CompareAndSwap currentState TableSinkStopping (sinkState e) in
        let e := set_sinkState cell e in
        if swapped then fst <$> GetCheckpointTs_fuel fuel e
        else freeze_loop fuel e
  end.

Definition freeze_fuel (fuel : nat) (e : EventTableSink)
  : option EventTableSink :=
  freeze_loop fuel (set_tracker (freezeProcess (tracker e)) e).

(** Fuel that is enough for every call of the three functions (shown below
    in [GetCheckpointTs_fuel_enough] and its siblings). *)
Definition enough : nat := 4.

(** [GetCheckpointTs]. *)
Definition GetCheckpointTs (e : EventTableSink) : EventTableSink * ResolvedTs :=
  default (e, frontier (tracker e)) (GetCheckpointTs_fuel enough e).

(** [markAsClosed]. *)
Definition markAsClosed (e : EventTableSink) : EventTableSink * bool :=
  default (e, false) (markAsClosed_fuel enough e).

(** [freeze]. *)
Definition freeze (e : EventTableSink) : EventTableSink :=
  default e (freeze_fuel enough e).

(** How a call of [Close] ends: it returns, or it stays blocked in
    [waitClosed] with the sink as it then is. *)
Inductive CloseResult : Type :=
| Closed (e : EventTableSink)
| Blocked (e : EventTableSink).

Definition sink_of (r : CloseResult) : EventTableSink :=
  match r with Closed e => e | Blocked e => e end.

(** [Close]; [pending] is what the other actors do to the tracker while the
    call waits. *)
Definition Close (pending : list Interference) (e : EventTableSink)
  : CloseResult :=
  let e := freeze e in
  match waitClosed pending (Dead (backendSink e)) (tracker e) with
  | Some t => Closed (fst (markAsClosed (set_tracker t e)))
  | None => Blocked (set_tracker (foldl (flip interfere) (tracker e) pending) e)
  end.

(** [AsyncClose]. *)
Definition AsyncClose (e : EventTableSink) : EventTableSink * bool :=
  let e := freeze e in
  let '(t, closed) := checkClosed (Dead (backendSink e)) (tracker e) in
  let e := set_tracker t e in
  if closed then (fst (markAsClosed e), true) else (e, false).

(** The calls of the close protocol, and what the backend does between
    them: it fires an ack, or it dies. *)
Inductive Step : Type :=
| StepFreeze
| StepMarkAsClosed
| StepClose (pending : list Interference)
| StepAsyncClose
| StepGetCheckpointTs
| StepBackendAck (id : N)
| StepBackendDies.

Definition step (s : Step) (e : EventTableSink) : EventTableSink :=
  match s with
  | StepFreeze => freeze e
  | StepMarkAsClosed => fst (markAsClosed e)
  | StepClose pending => sink_of (Close pending e)
  | StepAsyncClose => fst (AsyncClose e)
  | StepGetCheckpointTs => fst (GetCheckpointTs e)
  | StepBackendAck id => set_tracker (ack id (tracker e)) e
  | StepBackendDies =>
      set_backendSink (mkEventSink (WriteEvents (backendSink e)) true) e
  end.

(** The sink after a sequence of steps. *)
Definition run (steps : list Step) (e : EventTableSink) : EventTableSink :=
  foldl (flip step) e steps.

(** The data fields of the sink, which the close protocol leaves alone. *)
Definition same_data (e e' : EventTableSink) : Prop :=
  eventBuffer e' = eventBuffer e /\
  maxResolvedTs e' = maxResolvedTs e /\
  startTs e' = startTs e /\
  metricsTableSinkTotalRows e' = metricsTableSinkTotalRows e.

(** The events handed to the backend by a list of calls, in order. *)
Definition written (calls : list Call) : list E :=
  concat ((fun c => match c with
                    | CallWriteEvents batch => Event <$> batch
                    | _ => []
                    end) <$> calls).

(** Following the spec's words: [drainUpTo(r)] hands out the events with
    [commitTs <= r.ts]. *)
Definition drainUpTo (r : ResolvedTs) (buffer : list E) : list E :=
  filter (fun ev => GetCommitTs ev <= Ts_of r) buffer.

(** Following the spec's words: the events that stay behind, those with
    [commitTs > r.ts]. *)
Definition retained (r : ResolvedTs) (buffer : list E) : list E :=
  filter (fun ev => Ts_of r < GetCommitTs ev) buffer.

(** Invariant I1 of the spec: the buffer is non-decreasing in [commitTs]. *)
Definition ordered (buffer : list E) : Prop :=
  StronglySorted (fun a b => GetCommitTs a <= GetCommitTs b) buffer.

End EventTableSink.

Global Arguments EventTableSink E : clear implicits.
Global Arguments Call E : clear implicits.
Global Arguments UpdateResult E : clear implicits.
Global Arguments CloseResult E : clear implicits.
Global Arguments freeze : simpl never.
Global Arguments markAsClosed : simpl never.
Global Arguments GetCheckpointTs : simpl never.

End tablesink.

(** ** pkg/config: the sink configuration *)

Module config.

Local Open Scope Z_scope.

(** *** pkg/errors, pkg/util and net/url *)

(** Modelled from the spec: the kinds of error of [pkg/errors] that
    [sink.go] builds (section 7 of the spec; the package is not among the
    sources); [ErrCode] is any other kind, given by its code. *)
Inductive ErrorKind : Type :=
| ErrSinkURIInvalid
| ErrSinkInvalidConfig
| ErrIncompatibleSinkConfig
| ErrStorageSinkInvalidDateSeparator
| ErrInvalidReplicaConfig
| ErrCode (code : string).

#[export] Instance ErrorKind_eq_dec : EqDecision ErrorKind.
Proof. solve_decision. Defined.

(** An error of [pkg/errors]: its kind and the arguments it was built from
    (the format of each kind lives in [pkg/errors] and is not rendered). *)
Record error : Type := mkError {
  kind : ErrorKind;
  args : list string
}.

(** [cerror.ErrX.GenWithStackByArgs(args...)]. *)
Definition GenWithStackByArgs (k : ErrorKind) (a : list string) : error :=
  {| kind := k; args := a |}.

(** [cerror.ErrX.GenWithStack(format, ...)]; the values given to the format
    are not rendered. *)
Definition GenWithStack (k : ErrorKind) (format : string) : error :=
  {| kind := k; args := [format] |}.

(** The text of an error, as far as the model keeps it: its arguments. *)
Definition message (e : error) : string := String.concat ", " (args e).

(** [cerror.WrapError(ErrX, err)] around the text of the cause. *)
Definition WrapError (k : ErrorKind) (cause : string) : error :=
  {| kind := k; args := [cause] |}.

(** [cerror.ErrX.Equal(err)]: [err] is not nil and is of kind [ErrX]. *)
Definition Equal (k : ErrorKind) (err : option error) : bool :=
  match err with
  | Some e => bool_decide (kind e = k)
  | None => false
  end.

(** A Go pointer [*T]: nil, or a cell with its address and its content.
    [sink.go] never writes through a pointer (it only reassigns pointer
    fields), so a cell's content stays what it was when allocated. *)
Record cell (A : Type) : Type := mkCell {
  addr : N;
  deref : A
}.
Global Arguments mkCell {A} _ _.
Global Arguments addr {A} _.
Global Arguments deref {A} _.

Definition ptr (A : Type) : Type := option (cell A).

(** Go's [p != q] on pointers compares addresses. *)
Definition ptr_eqb {A : Type} (p q : ptr A) : bool :=
  match p, q with
  | None, None => true
  | Some c, Some d => bool_decide (addr c = addr d)
  | _, _ => false
  end.

(** The zero value of a Go type. *)
Class ZeroValue (A : Type) : Type := zero : A.
#[export] Instance string_zero : ZeroValue string := "".
#[export] Instance int_zero : ZeroValue Z := 0.
#[export] Instance bool_zero : ZeroValue bool := false.

(** Modelled from the spec: [util.GetOrZero] ([pkg/util] is not among the
    sources); an unset field reads as the zero value of its type, a set one
    as its content. *)
Definition GetOrZero {A : Type} `{ZeroValue A} (p : ptr A) : A :=
  match p with
  | Some c => deref c
  | None => zero
  end.

(** Modelled from the spec: [util.AddressOf] sets a field to a value: a
    pointer to a fresh cell holding [v]; [next] is the first address not yet
    in use. *)
Definition AddressOf {A : Type} (v : A) (next : N) : ptr A * N :=
  (Some (mkCell next v), N.succ next).

(** [url.URL], as far as [sink.go] reads it: the scheme and the parsed
    query ([url.Values], a [map[string][]string]). *)
Record URL : Type := mkURL {
  Scheme : string;
  Query : gmap string (list string)
}.

(** [url.Values.Get]: the first value of the key, or the empty string. *)
Definition Values_Get (key : string) (params : gmap string (list string))
  : string :=
  match params !! key with
  | Some (v :: _) => v
  | _ => ""
  end.

(** [strings.ToLower] on the ASCII letters.  The results are only compared
    with words of a to z without i and k, which no other letter lowers to. *)
Definition lower (c : Ascii.ascii) : Ascii.ascii :=
  let n := Ascii.nat_of_ascii c in
  if (65 <=? n)%nat && (n <=? 90)%nat then Ascii.ascii_of_nat (n + 32) else c.

Fixpoint ToLower (s : string) : string :=
  match s with
  | EmptyString => EmptyString
  | String c rest => String (lower c) (ToLower rest)
  end.

(** [strings.ContainsRune] for a one byte rune. *)
Fixpoint ContainsRune (s : string) (r : Ascii.ascii) : bool :=
  match s with
  | EmptyString => false
  | String c rest => bool_decide (c = r) || ContainsRune rest r
  end.

(** [strings.Contains]. *)
Definition Contains (s substr : string) : bool :=
  match String.index 0 substr s with
  | Some _ => true
  | None => bool_decide (substr = "")
  end.

(** *** Constants of [sink.go] *)

Definition TxnAtomicityKey : string := "transaction-atomicity".
Definition unknownTxnAtomicity : string := "".
Definition noneTxnAtomicity : string := "none".
Definition tableTxnAtomicity : string := "table".
Definition defaultTxnAtomicity : string := noneTxnAtomicity.

(** Modelled from the spec: [ProtocolKey] is declared next to the protocols,
    not in [sink.go]; the spec names the parameter [protocol]. *)
Definition ProtocolKey : string := "protocol".

Definition CR : Ascii.ascii := Ascii.ascii_of_nat 13.
Definition LF : Ascii.ascii := Ascii.ascii_of_nat 10.
Definition CRLF : string := String CR (String LF EmptyString).

Definition MinFileIndexWidth : Z := 6.
Definition MaxFileIndexWidth : Z := 20.
Definition DefaultFileIndexWidth : Z := MaxFileIndexWidth.

Definition BinaryEncodingHex : string := "hex".
Definition BinaryEncodingBase64 : string := "base64".

(** *** What [sink.go] takes from packages that are not among the sources *)

(** [pkg/sink] (the scheme families), the protocols of [pkg/config] and
    [url.Parse]. *)
Class Externals : Type := {
  IsMQScheme : string -> bool;
  IsStorageScheme : string -> bool;
  IsMySQLCompatibleScheme : string -> bool;
  SinkProtocol : Type;
  SinkProtocol_eq_dec :: EqDecision SinkProtocol;
  ProtocolCsv : SinkProtocol;
  ParseSinkProtocolFromString : string -> SinkProtocol * option error;
  url_Parse : string -> URL + string
}.

(** *** The configuration *)

(** [DispatchRule]. *)
Record DispatchRule : Type := mkDispatchRule {
  Matcher : list string;
  DispatcherRule : string;
  PartitionRule : string;
  TopicRule : string
}.

(** [CSVConfig]. *)
Record CSVConfig : Type := mkCSVConfig {
  Delimiter : string;
  Quote : string;
  NullString : string;
  IncludeCommitTs : bool;
  BinaryEncodingMethod : string
}.

(** [DateSeparator]. *)
Inductive DateSeparator : Type :=
| DateSeparatorNone
| DateSeparatorYear
| DateSeparatorMonth
| DateSeparatorDay.

(** [SinkConfig], the fields that validation and reconciliation read or
    write.  [AtomicityLevel] is a string.  The fields [CSVConfig] and
    [DateSeparator] carry a trailing underscore, their names being taken by
    the types.  The rules of [DispatchRules] are kept by value. *)
Record SinkConfig : Type := mkSinkConfig {
  TxnAtomicity : ptr string;
  Protocol : ptr string;
  DispatchRules : list DispatchRule;
  CSVConfig_ : option CSVConfig;
  EncoderConcurrency : ptr Z;
  Terminator : ptr string;
  DateSeparator_ : ptr string;
  FileIndexWidth : ptr Z;
  DeleteOnlyOutputHandleKeyColumns : ptr bool
}.

Definition set_TxnAtomicity (p : ptr string) (s : SinkConfig) : SinkConfig :=
  mkSinkConfig p (Protocol s) (DispatchRules s) (CSVConfig_ s)
    (EncoderConcurrency s) (Terminator s) (DateSeparator_ s)
    (FileIndexWidth s) (DeleteOnlyOutputHandleKeyColumns s).

Definition set_Protocol (p : ptr string) (s : SinkConfig) : SinkConfig :=
  mkSinkConfig (TxnAtomicity s) p (DispatchRules s) (CSVConfig_ s)
    (EncoderConcurrency s) (Terminator s) (DateSeparator_ s)
    (FileIndexWidth s) (DeleteOnlyOutputHandleKeyColumns s).

Definition set_DispatchRules (r : list DispatchRule) (s : SinkConfig)
  : SinkConfig :=
  mkSinkConfig (TxnAtomicity s) (Protocol s) r (CSVConfig_ s)
    (EncoderConcurrency s) (Terminator s) (DateSeparator_ s)
    (FileIndexWidth s) (DeleteOnlyOutputHandleKeyColumns s).

Definition set_Terminator (p : ptr string) (s : SinkConfig) : SinkConfig :=
  mkSinkConfig (TxnAtomicity s) (Protocol s) (DispatchRules s) (CSVConfig_ s)
    (EncoderConcurrency s) p (DateSeparator_ s)
    (FileIndexWidth s) (DeleteOnlyOutputHandleKeyColumns s).

Definition set_FileIndexWidth (p : ptr Z) (s : SinkConfig) : SinkConfig :=
  mkSinkConfig (TxnAtomicity s) (Protocol s) (DispatchRules s) (CSVConfig_ s)
    (EncoderConcurrency s) (Terminator s) (DateSeparator_ s)
    p (DeleteOnlyOutputHandleKeyColumns s).

(** What a call does besides changing the configuration: it panics, or it
    returns an error value ([None] is [nil]). *)
Inductive Outcome : Type :=
| Panic
| Return (err : option error).

(** The result of a method of [*SinkConfig]: the outcome, the configuration
    as the call leaves it, and the next free address. *)
Definition Result : Type := Outcome * SinkConfig * N.

Definition outcome_of (r : Result) : Outcome := r.1.1.
Definition config_of (r : Result) : SinkConfig := r.1.2.
Definition next_of (r : Result) : N := r.2.

(** [CSVConfig.validateAndAdjust]. *)
Definition CSVConfig_validateAndAdjust (c : option CSVConfig) : option error :=
  match c with
  | None => None
  | Some c =>
      if (1 <? String.length (Quote c))%nat then
        Some (WrapError ErrSinkInvalidConfig
                "csv config quote contains more than one character")
      else if match Quote c with
              | String quote EmptyString =>
                  bool_decide (quote = CR) || bool_decide (quote = LF)
              | _ => false
              end then
        Some (WrapError ErrSinkInvalidConfig
                "csv config quote cannot be line break character")
      else if (String.length (Delimiter c) =? 0)%nat then
        Some (WrapError ErrSinkInvalidConfig
                "csv config delimiter cannot be empty")
      else if ContainsRune (Delimiter c) CR || ContainsRune (Delimiter c) LF then
        Some (WrapError ErrSinkInvalidConfig
                "csv config delimiter contains line break characters")
      else if (0 <? String.length (Quote c))%nat
              && Contains (Delimiter c) (Quote c) then
        Some (WrapError ErrSinkInvalidConfig
                "csv config quote and delimiter cannot be the same")
      else if bool_decide (BinaryEncodingMethod c = BinaryEncodingHex)
              || bool_decide (BinaryEncodingMethod c = BinaryEncodingBase64) then
        None
      else
        Some (WrapError ErrSinkInvalidConfig
                "csv config binary-encoding-method can only be hex or base64")
  end.

(** [DateSeparator.FromString]: the separator, or the error. *)
Definition DateSeparator_FromString (separator : string)
  : DateSeparator + error :=
  let l := ToLower separator in
  if decide (l = "none") then inl DateSeparatorNone
  else if decide (l = "year") then inl DateSeparatorYear
  else if decide (l = "month") then inl DateSeparatorMonth
  else if decide (l = "day") then inl DateSeparatorDay
  else inr (GenWithStackByArgs ErrStorageSinkInvalidDateSeparator [separator]).

(** The loop of [validateAndAdjust] over the dispatch rules: the rules as
    the loop leaves them, and the error it stopped at.  The rules are kept
    by value: a nil pointer among the [[]*DispatchRule], which the Go loop
    would dereference, is outside the model.  The text of the error leaves
    out the rendered rule. *)
Fixpoint adjustDispatchRules (rules : list DispatchRule)
  : list DispatchRule * option error :=
  match rules with
  | [] => ([], None)
  | rule :: rest =>
      if negb (bool_decide (DispatcherRule rule = ""))
         && negb (bool_decide (PartitionRule rule = "")) then
        (rule :: rest,
         Some (WrapError ErrSinkInvalidConfig
                 "dispatcher and partition cannot be configured both for rule"))
      else
        let rule :=
          if negb (bool_decide (DispatcherRule rule = "")) then
            mkDispatchRule (Matcher rule) "" (DispatcherRule rule) (TopicRule rule)
          else rule in
        let '(rest, err) := adjustDispatchRules rest in
        (rule :: rest, err)
  end.

(** The closure [getErrMsg] of [applyParameterBySinkURI]: one of the two
    maps as text.  Go ranges over a map in no fixed order; the model takes
    the order of [map_to_list] (the maps hold two entries at most). *)
Definition getErrMsg (cfgIn : gmap string string) : string :=
  let errMsg :=
    foldl (fun acc kv => acc +:+ kv.1 +:+ "=" +:+ kv.2 +:+ ", ") ""
          (map_to_list cfgIn) in
  String.substring 0 (String.length errMsg - 2) errMsg.

(** The closure [getError] of [applyParameterBySinkURI]. *)
Definition getError (cfgInSinkURI cfgInFile : gmap string string) : Outcome :=
  if decide (size cfgInSinkURI ≠ size cfgInFile) then Panic
  else if decide (size cfgInSinkURI = 0%nat ∧ size cfgInFile = 0%nat) then
    Return None
  else
    Return (Some (GenWithStackByArgs ErrIncompatibleSinkConfig
                    [getErrMsg cfgInSinkURI; getErrMsg cfgInFile])).

(** The two maps among the results of [reconcile]. *)
Definition inURI_of
  (r : SinkConfig * N * gmap string string * gmap string string)
  : gmap string string := r.1.2.

Definition inFile_of
  (r : SinkConfig * N * gmap string string * gmap string string)
  : gmap string string := r.2.

(** The error a call returned ([None] for nil and for a panic). *)
Definition error_of (r : Result) : option error :=
  match outcome_of r with
  | Return err => err
  | Panic => None
  end.

(** The range [[MinFileIndexWidth, MaxFileIndexWidth]]. *)
Definition in_range (w : Z) : Prop :=
  MinFileIndexWidth <= w <= MaxFileIndexWidth.

Section SinkConfig.

Context {X : Externals}.

(** [AtomicityLevel.validate]. *)
Definition AtomicityLevel_validate (l : string) (scheme : string)
  : option error :=
  if decide (l = unknownTxnAtomicity) then None
  else if decide (l = noneTxnAtomicity) then None
  else if decide (l = tableTxnAtomicity) then
    if IsMQScheme scheme then
      Some (GenWithStackByArgs ErrSinkURIInvalid
              [l +:+ " level atomicity is not supported by " +:+ scheme +:+ " scheme"])
    else None
  else
    Some (GenWithStackByArgs ErrSinkURIInvalid
            [l +:+ " level atomicity is not supported by " +:+ scheme +:+ " scheme"]).

(** The body of [applyParameterBySinkURI] for a URI that is not nil, up to
    the call of [getError]: the configuration, the next free address and the
    maps [cfgInSinkURI] and [cfgInFile]. *)
Definition reconcile (sinkURI : URL) (s : SinkConfig) (next : N)
  : SinkConfig * N * gmap string string * gmap string string :=
  let cfgInSinkURI : gmap string string := ∅ in
  let cfgInFile : gmap string string := ∅ in
  let params := Query sinkURI in
  let txnAtomicityFromURI := Values_Get TxnAtomicityKey params in
  let '(s, next, cfgInSinkURI, cfgInFile) :=
    if decide (txnAtomicityFromURI ≠ unknownTxnAtomicity) then
      let '(cfgInSinkURI, cfgInFile) :=
        if decide (GetOrZero (TxnAtomicity s) ≠ unknownTxnAtomicity
                   ∧ GetOrZero (TxnAtomicity s) ≠ txnAtomicityFromURI) then
          (<[TxnAtomicityKey := txnAtomicityFromURI]> cfgInSinkURI,
           <[TxnAtomicityKey := GetOrZero (TxnAtomicity s)]> cfgInFile)
        else (cfgInSinkURI, cfgInFile) in
      let '(p, next) := AddressOf txnAtomicityFromURI next in
      (set_TxnAtomicity p s, next, cfgInSinkURI, cfgInFile)
    else (s, next, cfgInSinkURI, cfgInFile) in
  let protocolFromURI := Values_Get ProtocolKey params in
  if decide (protocolFromURI ≠ "") then
    let '(cfgInSinkURI, cfgInFile) :=
      if decide (Protocol s ≠ None
                 ∧ GetOrZero (Protocol s) ≠ protocolFromURI) then
        (<[ProtocolKey := protocolFromURI]> cfgInSinkURI,
         <[ProtocolKey := GetOrZero (Protocol s)]> cfgInFile)
      else (cfgInSinkURI, cfgInFile) in
    let '(p, next) := AddressOf protocolFromURI next in
    (set_Protocol p s, next, cfgInSinkURI, cfgInFile)
  else (s, next, cfgInSinkURI, cfgInFile).

(** [applyParameterBySinkURI]. *)
Definition applyParameterBySinkURI (sinkURI : option URL) (s : SinkConfig)
  (next : N) : Result :=
  match sinkURI with
  | None => (Return None, s, next)
  | Some sinkURI =>
      let '(s, next, cfgInSinkURI, cfgInFile) := reconcile sinkURI s next in
      (getError cfgInSinkURI cfgInFile, s, next)
  end.

(** The second half of [validateAndAdjustSinkURI]: the atomicity level and
    the protocol against the scheme. *)
Definition validateAgainstScheme (sinkURI : URL) (s : SinkConfig)
  : option error :=
  match AtomicityLevel_validate (GetOrZero (TxnAtomicity s)) (Scheme sinkURI) with
  | Some err => Some err
  | None =>
      if IsMQScheme (Scheme sinkURI) || IsStorageScheme (Scheme sinkURI) then
        (ParseSinkProtocolFromString (GetOrZero (Protocol s))).2
      else if IsMySQLCompatibleScheme (Scheme sinkURI)
              && negb (bool_decide (Protocol s = None)) then
        Some (GenWithStackByArgs ErrSinkURIInvalid
                ["protocol " +:+ GetOrZero (Protocol s) +:+ " is incompatible with "
                 +:+ Scheme sinkURI +:+ " scheme"])
      else None
  end.

(** [validateAndAdjustSinkURI]. *)
Definition validateAndAdjustSinkURI (sinkURI : option URL) (s : SinkConfig)
  (next : N) : Result :=
  match sinkURI with
  | None => (Return None, s, next)
  | Some u =>
      match applyParameterBySinkURI sinkURI s next with
      | (Panic, s, next) => (Panic, s, next)
      | (Return err, s, next) =>
          if bool_decide (err ≠ None) && negb (Equal ErrIncompatibleSinkConfig err)
          then (Return err, s, next)
          else (Return (validateAgainstScheme u s), s, next)
      end
  end.

(** The storage block of [validateAndAdjust]. *)
Definition validateStorage (s : SinkConfig) (next : N) : Result :=
  match
    (if (0 <? String.length (GetOrZero (DateSeparator_ s)))%nat then
       match DateSeparator_FromString (GetOrZero (DateSeparator_ s)) with
       | inl _ => None
       | inr err => Some (WrapError ErrSinkInvalidConfig (message err))
       end
     else None)
  with
  | Some err => (Return (Some err), s, next)
  | None =>
      let '(s, next) :=
        if (GetOrZero (FileIndexWidth s) <? MinFileIndexWidth)
           || (MaxFileIndexWidth <? GetOrZero (FileIndexWidth s)) then
          let '(p, next) := AddressOf DefaultFileIndexWidth next in
          (set_FileIndexWidth p s, next)
        else (s, next) in
      (Return (CSVConfig_validateAndAdjust (CSVConfig_ s)), s, next)
  end.

(** [validateAndAdjust]. *)
Definition validateAndAdjust (sinkURI : option URL) (s : SinkConfig)
  (next : N) : Result :=
  match validateAndAdjustSinkURI sinkURI s next with
  | (Panic, s, next) => (Panic, s, next)
  | (Return (Some err), s, next) => (Return (Some err), s, next)
  | (Return None, s, next) =>
      match sinkURI with
      | None => (Panic, s, next)
      | Some u =>
          if IsMySQLCompatibleScheme (Scheme u) then (Return None, s, next)
          else
            let '(rules, err) := adjustDispatchRules (DispatchRules s) in
            let s := set_DispatchRules rules s in
            match err with
            | Some err => (Return (Some err), s, next)
            | None =>
                if GetOrZero (EncoderConcurrency s) <? 0 then
                  (Return (Some (GenWithStack ErrSinkInvalidConfig
                     "encoder-concurrency should greater than 0, but got %d")),
                   s, next)
                else
                  let '(s, next) :=
                    match Terminator s with
                    | None =>
                        let '(p, next) := AddressOf CRLF next in
                        (set_Terminator p s, next)
                    | Some _ => (s, next)
                    end in
                  let protocol :=
                    (ParseSinkProtocolFromString (GetOrZero (Protocol s))).1 in
                  if GetOrZero (DeleteOnlyOutputHandleKeyColumns s)
                     && bool_decide (protocol = ProtocolCsv) then
                    (Return (Some (GenWithStack ErrSinkInvalidConfig
                       ("CSV protocol always output all columns for the delete event, "
                        +:+ "do not set `delete-only-output-handle-key-columns` to true"))),
                     s, next)
                  else if IsStorageScheme (Scheme u) then validateStorage s next
                  else (Return None, s, next)
            end
      end
  end.

(** [cfgParamsChanged] of [CheckCompatibilityWithSinkURI]: the two pointer
    fields are compared as pointers. *)
Definition cfgParamsChanged (s oldSinkConfig : SinkConfig) : bool :=
  negb (ptr_eqb (Protocol s) (Protocol oldSinkConfig))
  || negb (ptr_eqb (TxnAtomicity s) (TxnAtomicity oldSinkConfig)).

(** [CheckCompatibilityWithSinkURI].  The closure [isURIParamsChanged] works
    on a copy of the old configuration, which is left as it was.  The
    receiver and [oldSinkConfig] are held by value: a nil pointer for either,
    which the Go code dereferences once the URI has parsed, is outside the
    model. *)
Definition CheckCompatibilityWithSinkURI (oldSinkConfig : SinkConfig)
  (sinkURIStr : string) (s : SinkConfig) (next : N) : Result :=
  match url_Parse sinkURIStr with
  | inr err => (Return (Some (WrapError ErrSinkURIInvalid err)), s, next)
  | inl sinkURI =>
      let cfgParamsChanged := cfgParamsChanged s oldSinkConfig in
      match applyParameterBySinkURI (Some sinkURI) oldSinkConfig next with
      | (Panic, _, next) => (Panic, s, next)
      | (Return err, _, next) =>
          let uriParamsChanged := Equal ErrIncompatibleSinkConfig err in
          if negb uriParamsChanged && negb cfgParamsChanged then
            (Return None, s, next)
          else
            match applyParameterBySinkURI (Some sinkURI) s next with
            | (Panic, s, next) => (Panic, s, next)
            | (Return compatibilityError, s, next) =>
                if uriParamsChanged
                   && Equal ErrIncompatibleSinkConfig compatibilityError then
                  (Return None, s, next)
                else (Return compatibilityError, s, next)
            end
      end
  end.

End SinkConfig.

(** *** The other functions of [sink.go] *)

(** [AtomicityLevel.ShouldSplitTxn]. *)
Definition ShouldSplitTxn (l : string) : bool :=
  let l := if decide (l = unknownTxnAtomicity) then defaultTxnAtomicity else l in
  bool_decide (l = noneTxnAtomicity).

(** [DateSeparator.String], on the four declared separators (the [default]
    case of the Go switch answers "unknown" for any other integer). *)
Definition DateSeparator_String (d : DateSeparator) : string :=
  match d with
  | DateSeparatorNone => "none"
  | DateSeparatorYear => "year"
  | DateSeparatorMonth => "month"
  | DateSeparatorDay => "day"
  end.

Definition set_CSVConfig (c : option CSVConfig) (s : SinkConfig) : SinkConfig :=
  mkSinkConfig (TxnAtomicity s) (Protocol s) (DispatchRules s) c
    (EncoderConcurrency s) (Terminator s) (DateSeparator_ s)
    (FileIndexWidth s) (DeleteOnlyOutputHandleKeyColumns s).

Definition set_DateSeparator (p : ptr string) (s : SinkConfig) : SinkConfig :=
  mkSinkConfig (TxnAtomicity s) (Protocol s) (DispatchRules s) (CSVConfig_ s)
    (EncoderConcurrency s) (Terminator s) p
    (FileIndexWidth s) (DeleteOnlyOutputHandleKeyColumns s).

(** The bytes of a string. *)
Fixpoint bytes (s : string) : list Ascii.ascii :=
  match s with
  | EmptyString => []
  | String c rest => c :: bytes rest
  end.

(** What the loop over the dispatch rules makes of one rule that it does not
    reject: the partition rule takes the value of a dispatcher rule that is
    set, and the dispatcher rule is cleared. *)
Definition normalised (old new : DispatchRule) : Prop :=
  DispatcherRule new = "" /\
  PartitionRule new
    = (if decide (DispatcherRule old = "") then PartitionRule old
       else DispatcherRule old) /\
  Matcher new = Matcher old /\
  TopicRule new = TopicRule old.

Definition LargeMessageHandleOptionNone : string := "none".
Definition LargeMessageHandleOptionClaimCheck : string := "claim-check".
Definition LargeMessageHandleOptionHandleKeyOnly : string := "handle-key-only".

Definition CompressionNone : string := "none".
Definition CompressionSnappy : string := "snappy".
Definition CompressionLZ4 : string := "lz4".

(** [LargeMessageHandleConfig]. *)
Record LargeMessageHandleConfig : Type := mkLargeMessageHandleConfig {
  LargeMessageHandleOption : string;
  ClaimCheckStorageURI : string;
  ClaimCheckCompression : string
}.

(** [NewDefaultLargeMessageHandleConfig]. *)
Definition NewDefaultLargeMessageHandleConfig : LargeMessageHandleConfig :=
  {| LargeMessageHandleOption := LargeMessageHandleOptionNone;
     ClaimCheckStorageURI := "";
     ClaimCheckCompression := CompressionNone |}.

(** [LargeMessageHandleConfig.HandleKeyOnly]; the receiver may be nil. *)
Definition HandleKeyOnly (c : option LargeMessageHandleConfig) : bool :=
  match c with
  | None => false
  | Some c =>
      bool_decide (LargeMessageHandleOption c
                   = LargeMessageHandleOptionHandleKeyOnly)
  end.

(** [LargeMessageHandleConfig.EnableClaimCheck]. *)
Definition EnableClaimCheck (c : option LargeMessageHandleConfig) : bool :=
  match c with
  | None => false
  | Some c =>
      bool_decide (LargeMessageHandleOption c
                   = LargeMessageHandleOptionClaimCheck)
  end.

(** [LargeMessageHandleConfig.Disabled]. *)
Definition Disabled (c : option LargeMessageHandleConfig) : bool :=
  match c with
  | None => false
  | Some c =>
      bool_decide (LargeMessageHandleOption c = LargeMessageHandleOptionNone)
  end.

Section LargeMessageHandle.

Context {X : Externals}.

(** The two protocols [Validate] names. *)
Variables ProtocolOpen ProtocolCanalJSON : SinkProtocol.

(** [LargeMessageHandleConfig.Validate].  The method reads a field of its
    receiver first, so a nil receiver panics.  In the switch over the
    protocol the case [ProtocolOpen] comes first. *)
Definition Validate (c : option LargeMessageHandleConfig)
  (protocol : SinkProtocol) (enableTiDBExtension : bool) : Outcome :=
  match c with
  | None => Panic
  | Some c =>
      if decide (LargeMessageHandleOption c = LargeMessageHandleOptionNone) then
        Return None
      else
        match
          (if decide (protocol = ProtocolOpen) then None
           else if decide (protocol = ProtocolCanalJSON) then
             if negb enableTiDBExtension then
               Some (GenWithStack ErrInvalidReplicaConfig
                 ("large message handle is set to %s, protocol is %s, "
                  +:+ "but enable-tidb-extension is false"))
             else None
           else
             Some (GenWithStack ErrInvalidReplicaConfig
               ("large message handle is set to %s, protocol is %s, "
                +:+ "it's not supported")))
        with
        | Some err => Return (Some err)
        | None =>
            if decide (LargeMessageHandleOption c
                       = LargeMessageHandleOptionClaimCheck) then
              if decide (ClaimCheckStorageURI c = "") then
                Return (Some (GenWithStack ErrInvalidReplicaConfig
                  ("large message handle is set to claim-check, "
                   +:+ "but the claim-check-storage-uri is empty")))
              else if decide (ClaimCheckCompression c <> "") then
                if decide (ToLower (ClaimCheckCompression c) = CompressionSnappy
                           \/ ToLower (ClaimCheckCompression c) = CompressionLZ4)
                then Return None
                else
                  Return (Some (GenWithStack ErrInvalidReplicaConfig
                    "claim-check compression support snappy, lz4, got %s"))
              else Return None
            else Return None
        end
  end.

End LargeMessageHandle.

End config.

(** ** Sample backends, sinks, URIs and external packages

    Concrete inputs on which the definitions are run in the examples. *)

Module samples.

Import tablesink config.

(** A backend that accepts every batch, and one that refuses every batch. *)
Definition healthy : EventSink RowChangedEvent :=
  mkEventSink (fun _ => None) false.

Definition broken : EventSink RowChangedEvent :=
  mkEventSink (fun _ => Some "broken pipe") false.

Definition row (commitTs : N) : RowChangedEvent :=
  {| StartTs := 1; CommitTs := commitTs; RowID := commitTs |}.

(** A fresh sink after [append] of rows committed at 3, 5 and 7. *)
Definition sink357 (backend : EventSink RowChangedEvent)
  : EventTableSink RowChangedEvent :=
  AppendRowChangedEvents [row 3; row 5; row 7] (New 1%N backend 0%N).

(** A sink with an empty buffer that was stopped. *)
Definition stopped : EventTableSink RowChangedEvent :=
  set_sinkState TableSinkStopped (New 1%N healthy 0%N).

Inductive KnownProtocol : Type :=
| Unknown | Open | Canal | CanalJSON | Avro | Maxwell | Csv.

#[export] Instance KnownProtocol_eq_dec : EqDecision KnownProtocol.
Proof. solve_decision. Defined.

(** The protocols the spec names, by name. *)
Definition parse (protocol : string) : KnownProtocol * option error :=
  let p := ToLower protocol in
  if decide (p = "open") then (Open, None)
  else if decide (p = "canal") then (Canal, None)
  else if decide (p = "canal-json") then (CanalJSON, None)
  else if decide (p = "avro") then (Avro, None)
  else if decide (p = "maxwell") then (Maxwell, None)
  else if decide (p = "csv") then (Csv, None)
  else (Unknown,
        Some (GenWithStackByArgs (ErrCode "ErrSinkUnknownProtocol") [protocol])).

Definition kafka_open : URL :=
  {| Scheme := "kafka"; Query := {[ "protocol" := ["open"] ]} |}.

Definition kafka_table : URL :=
  {| Scheme := "kafka"; Query := {[ "transaction-atomicity" := ["table"] ]} |}.

Definition s3_csv : URL :=
  {| Scheme := "s3"; Query := {[ "protocol" := ["csv"] ]} |}.

Definition parse_url (uri : string) : URL + string :=
  if decide (uri = "kafka://127.0.0.1:9092/topic?protocol=open") then inl kafka_open
  else if decide (uri = "s3://bucket/prefix?protocol=csv") then inl s3_csv
  else inr "parse error".

#[export] Instance externals : Externals :=
  {| IsMQScheme := fun scheme => bool_decide (scheme ∈ ["kafka"; "pulsar"]);
     IsStorageScheme := fun scheme => bool_decide (scheme ∈ ["s3"; "file"]);
     IsMySQLCompatibleScheme := fun scheme => bool_decide (scheme ∈ ["mysql"; "tidb"]);
     SinkProtocol := KnownProtocol;
     ProtocolCsv := Csv;
     ParseSinkProtocolFromString := parse;
     url_Parse := parse_url |}.

(** A configuration with nothing set, and some with one field set. *)
Definition empty : SinkConfig :=
  mkSinkConfig None None [] None None None None None None.

Definition canal_json : SinkConfig :=
  set_Protocol (Some (mkCell 1%N "canal-json")) empty.

Definition empty_protocol : SinkConfig :=
  set_Protocol (Some (mkCell 1%N "")) empty.

Definition empty_atomicity : SinkConfig :=
  set_TxnAtomicity (Some (mkCell 1%N "")) empty.

Definition width3 : SinkConfig :=
  set_FileIndexWidth (Some (mkCell 1%N 3%Z)) empty.

(** [width3] as validation against [s3_csv] leaves it. *)
Definition width3_adjusted : SinkConfig :=
  mkSinkConfig None (Some (mkCell 100%N "csv")) [] None None
    (Some (mkCell 101%N CRLF)) None (Some (mkCell 102%N 20%Z)) None.

(** A URI of a MySQL sink that names a protocol. *)
Definition mysql_open : URL :=
  {| Scheme := "mysql"; Query := {[ "protocol" := ["open"] ]} |}.

(** A configuration with one dispatch rule, which names a dispatcher. *)
Definition with_dispatcher : SinkConfig :=
  set_DispatchRules [mkDispatchRule ["test.*"] "ts" "" "topic"] empty.

(** A CSV configuration with nothing set. *)
Definition bad_csv : CSVConfig := mkCSVConfig "" "" "" false "".

(** A large message configuration whose option is not one of the three. *)
Definition unknown_option : LargeMessageHandleConfig :=
  mkLargeMessageHandleConfig "compress" "" "".

End samples.

(** * Properties *)

(** ** sort.Search *)

Module sort_correct.

(** The midpoint lies in the interval, so the loop makes progress. *)
Lemma midpoint_bounds (i j : nat) :
  (i < j)%nat -> (i <= sort.midpoint i j < j)%nat.
Proof.
  intros Hij. unfold sort.midpoint. rewrite Nat.shiftr_div_pow2.
  change (2 ^ 1)%nat with 2%nat.
  split; [apply Nat.div_le_lower_bound | apply Nat.Div0.div_lt_upper_bound]; lia.
Qed.

(** On a probe that never panics below [len] and is monotone there, the
    loop returns the first index at which the probe holds. *)
Lemma search_loop_first (f : nat -> option bool) (len i j : nat) :
  (i <= j <= len)%nat ->
  (forall k, (k < len)%nat -> is_Some (f k)) ->
  (forall a b, (a <= b < len)%nat -> f a = Some true -> f b = Some true) ->
  (forall k, (k < i)%nat -> f k = Some false) ->
  (forall k, (j <= k < len)%nat -> f k = Some true) ->
  exists r, sort.search_loop f i j = Some r /\ (i <= r <= j)%nat /\
    (forall k, (k < r)%nat -> f k = Some false) /\
    (forall k, (r <= k < len)%nat -> f k = Some true).
Proof.
  intros Hij Htot Hmono. funelim (sort.search_loop f i j); intros Hlo Hhi.
  - exists i. repeat split; auto with lia.
  - pose proof (midpoint_bounds i j l) as Hm.
    destruct (H len) as (r & Hr & Hb & Hf & Ht); auto with lia.
    + intros k Hk. destruct (decide (j <= k)%nat); [apply Hhi; lia|].
      apply (Hmono (sort.midpoint i j)); auto with lia.
    + exists r. repeat split; auto with lia.
  - pose proof (midpoint_bounds i j l) as Hm.
    destruct (H len) as (r & Hr & Hb & Hf & Ht); auto with lia.
    + intros k Hk. destruct (decide (k < i)%nat); [apply Hlo; lia|].
      destruct (Htot k) as [[] Hfk]; [lia| |done].
      rewrite (Hmono k (sort.midpoint i j)) in Heq; [done|lia|done].
    + exists r. repeat split; auto with lia.
  - pose proof (midpoint_bounds i j l) as Hm.
    destruct (Htot (sort.midpoint i j)) as [b Hb]; [lia|]. congruence.
Qed.

(** The loop only probes indices below [len], and returns an index between
    its bounds, whatever the probe answers. *)
Lemma search_loop_in_bounds (f : nat -> option bool) (len i j : nat) :
  (i <= j <= len)%nat ->
  (forall k, (k < len)%nat -> is_Some (f k)) ->
  exists r, sort.search_loop f i j = Some r /\ (i <= r <= j)%nat.
Proof.
  intros Hij Htot. funelim (sort.search_loop f i j).
  - exists i. split; auto with lia.
  - pose proof (midpoint_bounds i j l) as Hm.
    destruct (H len) as (r & Hr & Hb); auto with lia.
    exists r. split; auto with lia.
  - pose proof (midpoint_bounds i j l) as Hm.
    destruct (H len) as (r & Hr & Hb); auto with lia.
    exists r. split; auto with lia.
  - pose proof (midpoint_bounds i j l) as Hm.
    destruct (Htot (sort.midpoint i j)) as [b Hb]; [lia|]. congruence.
Qed.

End sort_correct.

(** ** The event table sink *)

Module tablesink_correct.

Import tablesink sort_correct.

(** The order of [ResolvedTs] is antisymmetric, so "not equal or greater"
    is "strictly smaller". *)
Lemma compare_antisym (r r1 : ResolvedTs) :
  compare r r1 = CompOpp (compare r1 r).
Proof.
  unfold compare.
  rewrite (N.compare_antisym (Ts_of r) (Ts_of r1)).
  rewrite (N.compare_antisym (mode_rank (Mode r)) (mode_rank (Mode r1))).
  rewrite (N.compare_antisym (BatchID r) (BatchID r1)).
  destruct (Ts_of r ?= Ts_of r1); simpl; try done.
  destruct (mode_rank (Mode r) ?= mode_rank (Mode r1)); simpl; try done.
  by destruct (BatchID r ?= BatchID r1).
Qed.

Lemma Greater_not_EqualOrGreater (r r1 : ResolvedTs) :
  Greater r r1 <-> EqualOrGreater r1 r = false.
Proof.
  unfold Greater, EqualOrGreater. rewrite (compare_antisym r r1).
  destruct (compare r1 r); simpl; split; congruence.
Qed.

Lemma LessOrEqual_EqualOrGreater (r r1 : ResolvedTs) :
  LessOrEqual r r1 <-> EqualOrGreater r1 r = true.
Proof.
  unfold LessOrEqual, EqualOrGreater. rewrite (compare_antisym r r1).
  destruct (compare r1 r); simpl; split; congruence.
Qed.

(** In a sorted list, an earlier element is below a later one. *)
Lemma StronglySorted_lookup_lt {A} (R : relation A) (l : list A) (i j : nat) (a b : A) :
  StronglySorted R l -> (i < j)%nat -> l !! i = Some a -> l !! j = Some b ->
  R a b.
Proof.
  intros Hs. revert i j. induction Hs as [|x l Hs IH Hall]; intros i j Hij Ha Hb.
  - done.
  - destruct i as [|i], j as [|j]; simpl in *; try lia.
    + injection Ha as ->. rewrite Forall_lookup in Hall. by eapply Hall.
    + eapply IH; [|done..]. lia.
Qed.

Lemma filter_Forall_id {A} (P : A -> Prop) `{!forall x, Decision (P x)} (l : list A) :
  Forall P l -> filter P l = l.
Proof.
  induction 1 as [|x l Hx _ IH]; [done|]. rewrite filter_cons_True by done. by rewrite IH.
Qed.

Lemma filter_Forall_nil {A} (P : A -> Prop) `{!forall x, Decision (P x)} (l : list A) :
  Forall (fun x => ~ P x) l -> filter P l = [].
Proof.
  induction 1 as [|x l Hx _ IH]; [done|]. by rewrite filter_cons_False.
Qed.

(** A compare-and-swap towards a later state never moves the cell back,
    whatever the cell holds when the swap is tried. *)
Lemma CompareAndSwap_forward (old new cell : TableSinkState) :
  (rank old <= rank new)%nat ->
  (rank cell <= rank (CompareAndSwap old new cell).1)%nat.
Proof.
  intros Hle. unfold CompareAndSwap. destruct (decide (cell = old)) as [->|]; simpl; lia.
Qed.

Section EventTableSink.

Context {E : Type} `{TableEvent E} `{Appender E}.

(** The probe of [UpdateResolvedTs] does not panic inside the buffer. *)
Lemma commitTsAfter_total (r : ResolvedTs) (buffer : list E) (k : nat) :
  (k < length buffer)%nat -> is_Some (commitTsAfter r buffer k).
Proof.
  intros Hk. unfold commitTsAfter.
  destruct (lookup_lt_is_Some_2 buffer k Hk) as [ev ->]. simpl. eauto.
Qed.

(** On an ordered buffer the probe is monotone. *)
Lemma commitTsAfter_mono (r : ResolvedTs) (buffer : list E) (a b : nat) :
  ordered buffer -> (a <= b < length buffer)%nat ->
  commitTsAfter r buffer a = Some true -> commitTsAfter r buffer b = Some true.
Proof.
  intros Hs Hab. destruct (decide (a = b)) as [->|Hne]; [done|].
  unfold commitTsAfter.
  destruct (buffer !! a) as [x|] eqn:Ha; [simpl|done].
  destruct (lookup_lt_is_Some_2 buffer b) as [y Hb]; [lia|]. rewrite Hb. simpl.
  intros [= Hx%bool_decide_eq_true]. f_equal. apply bool_decide_eq_true.
  pose proof (StronglySorted_lookup_lt _ _ a b x y Hs ltac:(lia) Ha Hb). simpl in *. lia.
Qed.

(** On an ordered buffer, [sort.Search] finds the length of the prefix with
    [commitTs <= r.ts]: what is taken is what [drainUpTo] describes. *)
Lemma Search_commitTsAfter (r : ResolvedTs) (buffer : list E) :
  ordered buffer ->
  exists i, sort.Search (length buffer) (commitTsAfter r buffer) = Some i /\
    (i <= length buffer)%nat /\
    take i buffer = drainUpTo r buffer /\ drop i buffer = retained r buffer.
Proof.
  intros Hs.
  destruct (search_loop_first (commitTsAfter r buffer) (length buffer) 0 (length buffer))
    as (i & Hi & Hb & Hlo & Hhi); try lia.
  - intros k. apply commitTsAfter_total.
  - intros a b. by apply commitTsAfter_mono.
  - exists i. split; [done|]. split; [lia|].
    assert (Forall (fun ev => GetCommitTs ev <= Ts_of r) (take i buffer)) as Htake.
    { apply Forall_lookup. intros k x Hk.
      pose proof (lookup_lt_Some _ _ _ Hk) as Hlen. rewrite length_take in Hlen.
      rewrite lookup_take_lt in Hk by lia.
      specialize (Hlo k ltac:(lia)). unfold commitTsAfter in Hlo. rewrite Hk in Hlo.
      simpl in Hlo. injection Hlo as Hlo%bool_decide_eq_false. lia. }
    assert (Forall (fun ev => Ts_of r < GetCommitTs ev) (drop i buffer)) as Hdrop.
    { apply Forall_lookup. intros k x Hk. rewrite lookup_drop in Hk.
      pose proof (lookup_lt_Some _ _ _ Hk) as Hlen.
      specialize (Hhi (i + k)%nat ltac:(lia)). unfold commitTsAfter in Hhi. rewrite Hk in Hhi.
      simpl in Hhi. by injection Hhi as Hhi%bool_decide_eq_true. }
    unfold drainUpTo, retained. rewrite <- (take_drop i buffer) at 2 4.
    rewrite !filter_app.
    rewrite (filter_Forall_id _ _ Htake), (filter_Forall_id _ _ Hdrop).
    rewrite (filter_Forall_nil (fun ev => GetCommitTs ev <= Ts_of r) (drop i buffer)).
    2:{ eapply Forall_impl; [exact Hdrop|]. simpl. intros; lia. }
    rewrite (filter_Forall_nil (fun ev => Ts_of r < GetCommitTs ev) (take i buffer)).
    2:{ eapply Forall_impl; [exact Htake|]. simpl. intros; lia. }
    by rewrite app_nil_r.
Qed.

(** On any buffer, [sort.Search] returns an index within the buffer. *)
Lemma Search_in_bounds (r : ResolvedTs) (buffer : list E) :
  exists i, sort.Search (length buffer) (commitTsAfter r buffer) = Some i /\
    (i <= length buffer)%nat.
Proof.
  destruct (search_loop_in_bounds (commitTsAfter r buffer) (length buffer) 0 (length buffer))
    as (i & Hi & Hb); try lia.
  - intros k. apply commitTsAfter_total.
  - exists i. split; [done|lia].
Qed.

(** The batch carries the events it was built from, in order. *)
Lemma wrapEvents_Event (evs : list E) (t : progressTracker) :
  Event <$> (wrapEvents evs t).2 = evs.
Proof.
  revert t. induction evs as [|ev evs IH]; intros t; [done|].
  cbn [wrapEvents]. destruct (addEvent t) as [t1 cb].
  specialize (IH t1). destruct (wrapEvents evs t1) as [t2 ces].
  simpl in *. by f_equal.
Qed.


(** What [UpdateResolvedTs] does once past the guard, on any buffer. *)
Lemma UpdateResolvedTs_advance (r : ResolvedTs) (e : EventTableSink E) :
  EqualOrGreater (maxResolvedTs e) r = false ->
  exists i, sort.Search (length (eventBuffer e)) (commitTsAfter r (eventBuffer e)) = Some i /\
    (i <= length (eventBuffer e))%nat /\
    let wrapped := wrapEvents (take i (eventBuffer e)) (tracker e) in
    UpdateResolvedTs r e =
      Returned
        (mkSink (startTs e) r (backendSink e) (addResolvedTs r wrapped.1)
                (drop i (eventBuffer e)) (sinkState e) (metricsTableSinkTotalRows e))
        ((CallAddEvent <$> (Callback <$> wrapped.2))
         ++ [CallAddResolvedTs r; CallWriteEvents wrapped.2])
        (SinkInternalError <$> WriteEvents (backendSink e) wrapped.2).
Proof.
  intros Hgt. destruct (Search_in_bounds r (eventBuffer e)) as (i & Hi & Hle).
  exists i. split; [done|]. split; [done|].
  unfold UpdateResolvedTs. rewrite Hgt.
  destruct e as [st mx bk tr buf ss mt]; cbn in Hi, Hle |- *.
  rewrite Hi. destruct (decide (i = 0%nat)) as [->|Hne].
  - reflexivity.
  - rewrite decide_False by lia.
    destruct (wrapEvents (take i buf) tr) as [t ces]. reflexivity.
Qed.


(** C2.  A call [UpdateResolvedTs r] with [r] less than or equal to
    [maxResolvedTs] returns nil and changes nothing: the sink is the same
    ([maxResolvedTs], buffer and tracker included) and no call is made on the
    tracker or on the backend. *)
Theorem UpdateResolvedTs_noop (r : ResolvedTs) (e : EventTableSink E) :
  LessOrEqual r (maxResolvedTs e) ->
  UpdateResolvedTs r e = Returned e [] None.
Proof.
  intros Hle%LessOrEqual_EqualOrGreater. unfold UpdateResolvedTs. by rewrite Hle.
Qed.

(** [UpdateResolvedTs] never panics and never touches the state; it makes
    no call at all, or its last call is [WriteEvents], whose error it wraps. *)
Lemma UpdateResolvedTs_returns (r : ResolvedTs) (e : EventTableSink E) :
  exists e' calls res,
    UpdateResolvedTs r e = Returned e' calls res /\
    sinkState e' = sinkState e /\
    (calls = [] /\ res = None \/
     exists batch, last calls = Some (CallWriteEvents batch) /\
       res = SinkInternalError <$> WriteEvents (backendSink e) batch).
Proof.
  destruct (EqualOrGreater (maxResolvedTs e) r) eqn:Hcmp.
  - exists e, [], None. unfold UpdateResolvedTs. rewrite Hcmp. auto.
  - destruct (UpdateResolvedTs_advance r e Hcmp) as (i & _ & _ & Hupd).
    eexists _, _, _. split; [exact Hupd|]. split; [done|]. right.
    eexists. split; [|done]. by rewrite last_app.
Qed.

(** C5.  When the [WriteEvents] call of [UpdateResolvedTs] returns an error,
    [UpdateResolvedTs] returns that error wrapped as [SinkInternalError] and
    the state of the sink is what it was before the call. *)
Theorem UpdateResolvedTs_backend_error (r : ResolvedTs) (e e' : EventTableSink E)
    (calls : list (Call E)) (res : option sink_error)
    (batch : list (CallbackableEvent E)) (err : backend_error) :
  UpdateResolvedTs r e = Returned e' calls res ->
  last calls = Some (CallWriteEvents batch) ->
  WriteEvents (backendSink e) batch = Some err ->
  res = Some (SinkInternalError err) /\ sinkState e' = sinkState e.
Proof.
  intros Hupd Hlast Herr.
  destruct (UpdateResolvedTs_returns r e) as (e1 & calls1 & res1 & Hupd1 & Hst & Hcalls).
  rewrite Hupd in Hupd1. injection Hupd1 as <- <- <-.
  split; [|done].
  destruct Hcalls as [[-> _]|(batch1 & Hlast1 & ->)]; [done|].
  rewrite Hlast in Hlast1. injection Hlast1 as <-. by rewrite Herr.
Qed.

(** C3, as amended.  [AppendRowChangedEvents] does not read the state: in
    every state the rows go through the appender into the buffer, the state
    is left as it is, and the call commutes with any change of state. *)
Theorem AppendRowChangedEvents_any_state (rows : list RowChangedEvent)
    (e : EventTableSink E) :
  eventBuffer (AppendRowChangedEvents rows e) = Append (eventBuffer e) rows /\
  sinkState (AppendRowChangedEvents rows e) = sinkState e /\
  (forall s, AppendRowChangedEvents rows (set_sinkState s e)
             = set_sinkState s (AppendRowChangedEvents rows e)).
Proof. done. Qed.

(** [GetCheckpointTs] never moves the state back, and [markAsClosed] leaves
    it Stopped, with any fuel that is enough for them to return. *)
Lemma closing_fuel_forward (fuel : nat) :
  (forall (e e' : EventTableSink E) ts,
     GetCheckpointTs_fuel fuel e = Some (e', ts) ->
     (rank (sinkState e) <= rank (sinkState e'))%nat /\
     backendSink e' = backendSink e) /\
  (forall (e e' : EventTableSink E) b,
     markAsClosed_fuel fuel e = Some (e', b) ->
     sinkState e' = TableSinkStopped /\ backendSink e' = backendSink e).
Proof.
  induction fuel as [|fuel [IHg IHm]]; [split; intros; discriminate|].
  split.
  - intros e e' ts. cbn [GetCheckpointTs_fuel]. unfold Load.
    destruct (decide (sinkState e = TableSinkStopping)) as [Hst|Hst].
    + destruct (checkClosed _ _) as [t [|]].
      * destruct (markAsClosed_fuel fuel (set_tracker t e)) as [[e1 b]|] eqn:Hm; [|done].
        apply IHm in Hm as [Hm Hb]. cbn.
        destruct (advance (tracker e1)) as [t1 ts1]. intros [= <- <-]. cbn.
        rewrite Hm, Hst, Hb. split; [simpl; lia|done].
      * cbn. destruct (advance t) as [t1 ts1]. intros [= <- <-]. done.
    + cbn. destruct (advance (tracker e)) as [t1 ts1]. intros [= <- <-]. done.
  - intros e e' b. cbn [markAsClosed_fuel]. unfold Load, CompareAndSwap.
    destruct (decide (sinkState e = TableSinkStopped)) as [Hst|Hst].
    + intros [= <- <-]. done.
    + rewrite decide_True by done.
      destruct (GetCheckpointTs_fuel fuel _) as [[e1 ts]|] eqn:Hg; [|done].
      apply IHg in Hg as [Hg Hb]. cbn. intros [= <- <-].
      cbn in Hg, Hb. split; [|done].
      destruct (sinkState e1); simpl in Hg; done || lia.
Qed.

Ltac settle_state :=
  unfold Load, CompareAndSwap; cbn;
  repeat (case_decide; try congruence; try tauto; cbn).

Local Ltac by_cases_on_tracker :=
  repeat match goal with
         | |- context [checkClosed ?d ?t] => destruct (checkClosed d t) as [? [|]]; cbn
         | |- context [advance ?t] => destruct (advance t) as [? ?]; cbn
         end.

(** The three functions return with fuel 3, 2 and 4, and more fuel does not
    change what they return. *)
Lemma GetCheckpointTs_fuel_enough (n : nat) (e : EventTableSink E) :
  (3 <= n)%nat -> GetCheckpointTs_fuel n e = Some (GetCheckpointTs e).
Proof.
  intros Hn. destruct n as [|[|[|n]]]; try lia.
  unfold GetCheckpointTs, enough.
  destruct e as [st mx bk tr buf ss mt].
  cbn [GetCheckpointTs_fuel markAsClosed_fuel].
  destruct ss; settle_state; by_cases_on_tracker; settle_state;
    by_cases_on_tracker; reflexivity.
Qed.

Lemma markAsClosed_fuel_enough (n : nat) (e : EventTableSink E) :
  (2 <= n)%nat -> markAsClosed_fuel n e = Some (markAsClosed e).
Proof.
  intros Hn. destruct n as [|[|n]]; try lia.
  unfold markAsClosed, enough.
  destruct e as [st mx bk tr buf ss mt].
  cbn [GetCheckpointTs_fuel markAsClosed_fuel].
  destruct ss; settle_state; by_cases_on_tracker; settle_state;
    by_cases_on_tracker; reflexivity.
Qed.

Lemma freeze_fuel_enough (n : nat) (e : EventTableSink E) :
  (4 <= n)%nat -> freeze_fuel n e = Some (freeze e).
Proof.
  intros Hn. destruct n as [|[|[|[|n]]]]; try lia.
  unfold freeze, enough, freeze_fuel.
  destruct e as [st mx bk tr buf ss mt].
  cbn [freeze_loop GetCheckpointTs_fuel markAsClosed_fuel].
  destruct ss; settle_state; by_cases_on_tracker; settle_state;
    by_cases_on_tracker; settle_state; by_cases_on_tracker; reflexivity.
Qed.

Lemma GetCheckpointTs_forward (e : EventTableSink E) :
  (rank (sinkState e) <= rank (sinkState (GetCheckpointTs e).1))%nat /\
  backendSink (GetCheckpointTs e).1 = backendSink e.
Proof.
  pose proof (GetCheckpointTs_fuel_enough 3 e ltac:(lia)) as Hf.
  destruct (GetCheckpointTs e) as [e' ts].
  by apply (proj1 (closing_fuel_forward 3)) in Hf.
Qed.

Lemma markAsClosed_stopped (e : EventTableSink E) :
  sinkState (markAsClosed e).1 = TableSinkStopped /\
  backendSink (markAsClosed e).1 = backendSink e.
Proof.
  pose proof (markAsClosed_fuel_enough 2 e ltac:(lia)) as Hf.
  destruct (markAsClosed e) as [e' b].
  by apply (proj2 (closing_fuel_forward 2)) in Hf.
Qed.

Lemma freeze_frozen (e : EventTableSink E) :
  sinkState (freeze e) <> TableSinkSinking /\
  (rank (sinkState e) <= rank (sinkState (freeze e)))%nat.
Proof.
  pose proof (freeze_fuel_enough 4 e ltac:(lia)) as Hf.
  unfold freeze_fuel in Hf. cbn [freeze_loop] in Hf. unfold Load, CompareAndSwap in Hf.
  destruct (decide (_ ∨ _)) as [Hst|Hst] in Hf.
  - injection Hf as <-. cbn [set_tracker sinkState] in Hst |- *. split; [|lia].
    destruct Hst as [-> | ->]; done.
  - cbn in Hst. rewrite decide_True in Hf by done.
    destruct (GetCheckpointTs_fuel 3 _) as [[e1 ts]|] eqn:Hg; [|done].
    apply (proj1 (closing_fuel_forward 3)) in Hg as [Hg _]. cbn in Hg, Hf.
    injection Hf as <-.
    split; [destruct (sinkState e1); simpl in Hg; done || lia|].
    destruct (sinkState e); simpl; try lia; tauto.
Qed.

Lemma Close_forward (pending : list Interference) (e : EventTableSink E) :
  (rank (sinkState e) <= rank (sinkState (sink_of (Close pending e))))%nat /\
  sinkState (sink_of (Close pending e)) <> TableSinkSinking /\
  (forall e', Close pending e = Closed e' -> sinkState e' = TableSinkStopped).
Proof.
  unfold Close. destruct (freeze_frozen e) as [Hne Hle].
  destruct (waitClosed _ _ _) as [t|].
  - cbn. pose proof (markAsClosed_stopped (set_tracker t (freeze e))) as [Hm _].
    rewrite Hm. split; [destruct (sinkState e); simpl; lia|]. split; [done|].
    by intros e' [= <-].
  - cbn. done.
Qed.

Lemma AsyncClose_forward (e : EventTableSink E) :
  (rank (sinkState e) <= rank (sinkState (AsyncClose e).1))%nat /\
  ((AsyncClose e).2 = true -> sinkState (AsyncClose e).1 = TableSinkStopped).
Proof.
  unfold AsyncClose. destruct (freeze_frozen e) as [Hne Hle].
  destruct (checkClosed _ _) as [t [|]]; cbn.
  - pose proof (markAsClosed_stopped (set_tracker t (freeze e))) as [Hm _].
    rewrite Hm. split; [destruct (sinkState e); simpl; lia|done].
  - done.
Qed.

Lemma step_forward (s : Step) (e : EventTableSink E) :
  (rank (sinkState e) <= rank (sinkState (step s e)))%nat.
Proof.
  destruct s; cbn [step].
  - apply freeze_frozen.
  - rewrite (proj1 (markAsClosed_stopped e)). destruct (sinkState e); simpl; lia.
  - apply Close_forward.
  - apply AsyncClose_forward.
  - apply GetCheckpointTs_forward.
  - done.
  - done.
Qed.

Lemma run_forward (steps : list Step) (e : EventTableSink E) :
  (rank (sinkState e) <= rank (sinkState (run steps e)))%nat.
Proof.
  revert e. induction steps as [|s steps IH]; intros e; [done|].
  unfold run in *. cbn [foldl]. etrans; [apply (step_forward s)|apply IH].
Qed.

Lemma run_app (steps steps' : list Step) (e : EventTableSink E) :
  run (steps ++ steps') e = run steps' (run steps e).
Proof. unfold run. apply foldl_app. Qed.

(** C4.  Along every sequence of [freeze], [markAsClosed], [Close],
    [AsyncClose] and [GetCheckpointTs] calls (and of acks and deaths of the
    backend between them) the state only moves forward on Sinking, Stopping,
    Stopped: its rank never decreases, after Stopping it is never Sinking
    again, after Stopped it stays Stopped; a [Close] that returns leaves the
    sink Stopped, and a second [Close] on it leaves it Stopped. *)
Theorem state_moves_forward (steps steps' : list Step)
    (pending pending' : list Interference) (e : EventTableSink E) :
  let before := sinkState (run steps e) in
  let after := sinkState (run (steps ++ steps') e) in
  (rank before <= rank after)%nat /\
  (before = TableSinkStopping -> after <> TableSinkSinking) /\
  (before = TableSinkStopped -> after = TableSinkStopped) /\
  (sinkState e = TableSinkStopped ->
   sinkState (sink_of (Close pending e)) = TableSinkStopped) /\
  (forall e', Close pending e = Closed e' ->
     sinkState e' = TableSinkStopped /\
     sinkState (sink_of (Close pending' e')) = TableSinkStopped).
Proof.
  intros before after.
  assert (rank before <= rank after)%nat as Hle.
  { unfold before, after. rewrite run_app. apply run_forward. }
  assert (forall p (e0 : EventTableSink E), sinkState e0 = TableSinkStopped ->
            sinkState (sink_of (Close p e0)) = TableSinkStopped) as Hstays.
  { intros p e0 He0. pose proof (Close_forward p e0) as [Hr _]. rewrite He0 in Hr.
    destruct (sinkState (sink_of (Close p e0))); simpl in Hr; done || lia. }
  split; [exact Hle|].
  split; [intros Hb Ha; rewrite Hb, Ha in Hle; simpl in Hle; lia|].
  split; [intros Hb; rewrite Hb in Hle; destruct after; simpl in Hle; done || lia|].
  split; [apply Hstays|].
  intros e' Hc. apply Close_forward in Hc. split; [done|]. by apply Hstays.
Qed.

(** [wrapEvents] enqueues one pending event per callback and leaves the
    frozen flag and the last marker alone. *)
Lemma wrapEvents_queue (evs : list E) (t : progressTracker) :
  queue (wrapEvents evs t).1
    = queue t ++ (EventPending <$> (Callback <$> (wrapEvents evs t).2)) /\
  frozen (wrapEvents evs t).1 = frozen t /\
  lastMarker (wrapEvents evs t).1 = lastMarker t.
Proof.
  revert t. induction evs as [|ev evs IH]; intros t.
  - cbn. by rewrite app_nil_r.
  - cbn [wrapEvents]. destruct (addEvent t) as [t1 cb] eqn:Ha.
    unfold addEvent in Ha. injection Ha as <- <-.
    match goal with |- context [wrapEvents evs ?t1] => specialize (IH t1) end.
    destruct (wrapEvents evs _) as [t2 ces]. cbn in IH |- *.
    destruct IH as (-> & -> & ->). by rewrite <- app_assoc.
Qed.

(** A tracker that is not frozen accepts a marker above its last one. *)
Lemma addResolvedTs_enqueues (r : ResolvedTs) (t : progressTracker) :
  frozen t = false ->
  (forall l, lastMarker t = Some l -> Greater r l) ->
  queue (addResolvedTs r t) = queue t ++ [ResolvedMarker r].
Proof.
  intros Hf Hl. unfold addResolvedTs. rewrite Hf.
  destruct (lastMarker t) as [l|]; [|done].
  specialize (Hl l eq_refl). apply Greater_not_EqualOrGreater in Hl. by rewrite Hl.
Qed.

(** Invariant I2 of the spec. *)
Lemma UpdateResolvedTs_marker_behind_events (r : ResolvedTs) (e : EventTableSink E) :
  Greater r (maxResolvedTs e) ->
  frozen (tracker e) = false ->
  (forall l, lastMarker (tracker e) = Some l -> Greater r l) ->
  exists e' batch res,
    UpdateResolvedTs r e
      = Returned e' ((CallAddEvent <$> (Callback <$> batch))
                     ++ [CallAddResolvedTs r; CallWriteEvents batch]) res /\
    queue (tracker e')
      = queue (tracker e) ++ (EventPending <$> (Callback <$> batch))
        ++ [ResolvedMarker r].
Proof.
  intros Hgt%Greater_not_EqualOrGreater Hf Hl.
  destruct (UpdateResolvedTs_advance r e Hgt) as (i & _ & _ & Hupd).
  cbv zeta in Hupd. eexists _, _, _. split; [exact Hupd|]. cbn [tracker].
  destruct (wrapEvents_queue (take i (eventBuffer e)) (tracker e)) as (Hq & Hfr & Hlm).
  rewrite addResolvedTs_enqueues; [|congruence|intros l; rewrite Hlm; apply Hl].
  rewrite Hq. by rewrite <- app_assoc.
Qed.

End EventTableSink.

(** *** Worked examples *)

Import samples.


(** C2 on a sink advanced to 50 and the watermark 30. *)
Lemma UpdateResolvedTs_noop_witness :
  let e := set_maxResolvedTs (NewResolvedTs 50) (sink357 healthy) in
  LessOrEqual (NewResolvedTs 30) (maxResolvedTs e) /\
  UpdateResolvedTs (NewResolvedTs 30) e = Returned e [] None.
Proof.
  intros e.
  assert (LessOrEqual (NewResolvedTs 30) (maxResolvedTs e)) as Hle by (by vm_compute).
  split; [exact Hle|]. exact (UpdateResolvedTs_noop (NewResolvedTs 30) e Hle).
Defined.

(** C5 on a backend that refuses every batch. *)
Lemma UpdateResolvedTs_backend_error_witness :
  let r := NewResolvedTs 6 in
  let e := sink357 broken in
  let batch := [mkCallbackable (row 3) 0; mkCallbackable (row 5) 1] in
  let e' := mkSink 1 r broken
              (addResolvedTs r (wrapEvents [row 3; row 5] (tracker e)).1)
              [row 7] TableSinkSinking 3 in
  let calls := [CallAddEvent 0; CallAddEvent 1; CallAddResolvedTs r;
                CallWriteEvents batch] in
  let res := Some (SinkInternalError "broken pipe") in
  UpdateResolvedTs r e = Returned e' calls res /\
  last calls = Some (CallWriteEvents batch) /\
  WriteEvents (backendSink e) batch = Some "broken pipe" /\
  res = Some (SinkInternalError "broken pipe") /\
  sinkState e' = sinkState e.
Proof.
  intros r e batch e' calls res.
  assert (UpdateResolvedTs r e = Returned e' calls res) as Hupd by reflexivity.
  assert (last calls = Some (CallWriteEvents batch)) as Hlast by reflexivity.
  assert (WriteEvents (backendSink e) batch = Some "broken pipe") as Herr by reflexivity.
  split; [exact Hupd|]. split; [exact Hlast|]. split; [exact Herr|].
  exact (UpdateResolvedTs_backend_error r e e' calls res batch "broken pipe"
           Hupd Hlast Herr).
Defined.

(** C3, as stated, fails: on a sink that is Stopped, with an empty buffer,
    appending a row is not rejected, the row is in the buffer afterwards. *)
Lemma AppendRowChangedEvents_when_stopped :
  sinkState stopped = TableSinkStopped /\
  eventBuffer stopped = [] /\
  eventBuffer (AppendRowChangedEvents [row 7] stopped) = [row 7].
Proof. done. Qed.

(** Scenario 4 of the spec: advance to 50, then to 30. *)
Example advance_50_then_30 :
  exists e50,
    UpdateResolvedTs (NewResolvedTs 50) (New 1 healthy 0)
      = Returned e50 [CallAddResolvedTs (NewResolvedTs 50); CallWriteEvents []] None /\
    UpdateResolvedTs (NewResolvedTs 30) e50 = Returned e50 [] None /\
    maxResolvedTs e50 = NewResolvedTs 50.
Proof. eexists. split; [reflexivity|]. split; reflexivity. Qed.

(** Scenario 1 of the spec: rows at 3, 5 and 7, advance to 6, acks of the
    first two, advance to 10, ack of the third. *)
Example plain_advance :
  let e1 := updated (NewResolvedTs 6) (sink357 healthy) in
  let e2 := run [StepBackendAck 0; StepBackendAck 1] e1 in
  let '(e3, c3) := GetCheckpointTs e2 in
  let e4 := step (StepBackendAck 2) (updated (NewResolvedTs 10) e3) in
  (GetCheckpointTs e1).2 = NewResolvedTs 0 /\
  c3 = NewResolvedTs 6 /\
  (GetCheckpointTs e4).2 = NewResolvedTs 10.
Proof. vm_compute. done. Qed.

(** Scenario 2 of the spec: advance to 10, acks in the order 7, 3, 5. *)
Example out_of_order_acks :
  let e1 := updated (NewResolvedTs 10) (sink357 healthy) in
  let '(e2, c2) := GetCheckpointTs (step (StepBackendAck 2) e1) in
  let '(e3, c3) := GetCheckpointTs (step (StepBackendAck 0) e2) in
  let '(e4, c4) := GetCheckpointTs (step (StepBackendAck 1) e3) in
  c2 = NewResolvedTs 0 /\ c3 = NewResolvedTs 0 /\ c4 = NewResolvedTs 10.
Proof. vm_compute. done. Qed.

(** Scenario 5 of the spec: the backend never acks and dies; [Close]
    returns, the sink is Stopped and the checkpoint is the last marker. *)
Example close_with_dead_backend :
  let e1 := updated (NewResolvedTs 6) (sink357 healthy) in
  let e2 := step StepBackendDies e1 in
  exists c, Close [] e2 = Closed c /\ sinkState c = TableSinkStopped /\
            (GetCheckpointTs c).2 = NewResolvedTs 6.
Proof. vm_compute. eexists. done. Qed.

(** A sink that was closed while an event is unacknowledged: [Close] stays
    blocked until the ack arrives, and the sink is Stopping meanwhile. *)
Example Close_waits_for_acks :
  match UpdateResolvedTs (NewResolvedTs 6) (sink357 healthy) with
  | Returned e _ _ =>
      (exists b, Close [] e = Blocked b /\ sinkState b = TableSinkStopping) /\
      (exists c, Close [Acked 0; Acked 1; Advanced] e = Closed c
                 /\ sinkState c = TableSinkStopped)
  | Panicked => False
  end.
Proof. vm_compute. split; eexists; split; reflexivity. Qed.

End tablesink_correct.

(** ** The sink configuration *)

Module config_correct.

Import config.

Local Open Scope Z_scope.

Section SinkConfig.

Context {X : Externals}.

(** The two maps are inserted into together, under the same keys. *)
Lemma reconcile_dom (u : URL) (s : SinkConfig) (next : N) :
  dom (inURI_of (reconcile u s next)) = dom (inFile_of (reconcile u s next)).
Proof.
  unfold reconcile, inURI_of, inFile_of.
  repeat (first [case_decide | progress cbn]); rewrite ?dom_insert_L, ?dom_empty_L; done.
Qed.

Lemma reconcile_size (u : URL) (s : SinkConfig) (next : N) :
  size (inURI_of (reconcile u s next)) = size (inFile_of (reconcile u s next)).
Proof. rewrite <- !size_dom. by rewrite reconcile_dom. Qed.

(** With maps of the same size, [getError] returns. *)
Lemma getError_same_size (inURI inFile : gmap string string) :
  size inURI = size inFile ->
  getError inURI inFile =
    if decide (size inURI = 0%nat) then Return None
    else Return (Some (GenWithStackByArgs ErrIncompatibleSinkConfig
                         [getErrMsg inURI; getErrMsg inFile])).
Proof.
  intros Hsz. unfold getError. rewrite decide_False by (intros Hne; by apply Hne).
  repeat case_decide; try done; lia.
Qed.

Lemma applyParameterBySinkURI_unfold (u : URL) (s : SinkConfig) (next : N) :
  applyParameterBySinkURI (Some u) s next =
  (getError (inURI_of (reconcile u s next)) (inFile_of (reconcile u s next)),
   (reconcile u s next).1.1.1, (reconcile u s next).1.1.2).
Proof.
  unfold applyParameterBySinkURI, inURI_of, inFile_of.
  by destruct (reconcile u s next) as [[[s' n'] a] b].
Qed.

(** [applyParameterBySinkURI] returns nil or an [ErrIncompatibleSinkConfig]
    error, nothing else. *)
Lemma applyParameterBySinkURI_returns (sinkURI : option URL) (s : SinkConfig) (next : N) :
  exists err,
    outcome_of (applyParameterBySinkURI sinkURI s next) = Return err /\
    (err = None \/ Equal ErrIncompatibleSinkConfig err = true).
Proof.
  destruct sinkURI as [u|]; [|exists None; auto].
  rewrite applyParameterBySinkURI_unfold. unfold outcome_of. cbn [fst].
  rewrite getError_same_size by apply reconcile_size.
  case_decide; eauto.
Qed.

(** C9.  The maps [cfgInSinkURI] and [cfgInFile] of
    [applyParameterBySinkURI] always have the same keys, hence the same
    number of entries, so [getError] never takes the panic branch and
    [applyParameterBySinkURI] returns for every configuration and URI. *)
Theorem applyParameterBySinkURI_never_panics (u : URL) (sinkURI : option URL)
    (s : SinkConfig) (next : N) :
  dom (inURI_of (reconcile u s next)) = dom (inFile_of (reconcile u s next)) /\
  size (inURI_of (reconcile u s next)) = size (inFile_of (reconcile u s next)) /\
  (exists err,
     getError (inURI_of (reconcile u s next)) (inFile_of (reconcile u s next))
     = Return err) /\
  (exists err, outcome_of (applyParameterBySinkURI sinkURI s next) = Return err).
Proof.
  split; [apply reconcile_dom|]. split; [apply reconcile_size|]. split.
  - rewrite getError_same_size by apply reconcile_size. case_decide; eauto.
  - destruct (applyParameterBySinkURI_returns sinkURI s next) as (err & Herr & _). eauto.
Qed.


Lemma keys_differ : TxnAtomicityKey <> ProtocolKey.
Proof. discriminate. Qed.

(** What [reconcile] leaves in the configuration: the URI wins where it has
    a value, everything else is untouched. *)
Lemma reconcile_config (u : URL) (s : SinkConfig) (next : N) :
  let s' := (reconcile u s next).1.1.1 in
  let txn := Values_Get TxnAtomicityKey (Query u) in
  let proto := Values_Get ProtocolKey (Query u) in
  (if decide (txn = "") then TxnAtomicity s' = TxnAtomicity s
   else exists a, TxnAtomicity s' = Some (mkCell a txn)) /\
  (if decide (proto = "") then Protocol s' = Protocol s
   else exists a, Protocol s' = Some (mkCell a proto)) /\
  DispatchRules s' = DispatchRules s /\
  CSVConfig_ s' = CSVConfig_ s /\
  EncoderConcurrency s' = EncoderConcurrency s /\
  Terminator s' = Terminator s /\
  DateSeparator_ s' = DateSeparator_ s /\
  FileIndexWidth s' = FileIndexWidth s /\
  DeleteOnlyOutputHandleKeyColumns s' = DeleteOnlyOutputHandleKeyColumns s.
Proof.
  unfold reconcile, unknownTxnAtomicity.
  repeat (first [case_decide | progress cbn]); try congruence;
    repeat split; eauto.
Qed.

(** What [reconcile] records: for the atomicity level, a pair when both
    values are non-empty and differ; for the protocol, a pair when the URI
    value is non-empty and differs from a protocol that is set. *)
Lemma reconcile_maps (u : URL) (s : SinkConfig) (next : N) :
  let r := reconcile u s next in
  let txn := Values_Get TxnAtomicityKey (Query u) in
  let proto := Values_Get ProtocolKey (Query u) in
  let txnFile := GetOrZero (TxnAtomicity s) in
  let protoFile := GetOrZero (Protocol s) in
  (if decide (txn <> "" /\ txnFile <> "" /\ txnFile <> txn)
   then inURI_of r !! TxnAtomicityKey = Some txn /\
        inFile_of r !! TxnAtomicityKey = Some txnFile
   else inURI_of r !! TxnAtomicityKey = None /\
        inFile_of r !! TxnAtomicityKey = None) /\
  (if decide (proto <> "" /\ Protocol s <> None /\ protoFile <> proto)
   then inURI_of r !! ProtocolKey = Some proto /\
        inFile_of r !! ProtocolKey = Some protoFile
   else inURI_of r !! ProtocolKey = None /\
        inFile_of r !! ProtocolKey = None) /\
  (forall k, k <> TxnAtomicityKey -> k <> ProtocolKey ->
     inURI_of r !! k = None /\ inFile_of r !! k = None).
Proof.
  pose proof keys_differ as Hk.
  unfold reconcile, inURI_of, inFile_of, unknownTxnAtomicity.
  repeat (first [case_decide | progress cbn]);
    repeat split; intros; simplify_map_eq; try done; tauto.
Qed.

Lemma AtomicityLevel_validate_kind (l scheme : string) (e : error) :
  AtomicityLevel_validate l scheme = Some e -> kind e = ErrSinkURIInvalid.
Proof.
  unfold AtomicityLevel_validate. repeat case_decide; try done.
  - destruct (IsMQScheme scheme); [|done]. by intros [= <-].
  - by intros [= <-].
Qed.

Lemma validateAgainstScheme_kind (u : URL) (s : SinkConfig) (e : error) :
  (forall p e, (ParseSinkProtocolFromString p).2 = Some e ->
               kind e <> ErrIncompatibleSinkConfig) ->
  validateAgainstScheme u s = Some e -> kind e <> ErrIncompatibleSinkConfig.
Proof.
  intros Hparse. unfold validateAgainstScheme.
  destruct (AtomicityLevel_validate _ _) as [e'|] eqn:Hv.
  - intros [= <-]. by rewrite (AtomicityLevel_validate_kind _ _ _ Hv).
  - destruct (_ || _); [apply Hparse|].
    destruct (_ && _); [|done]. by intros [= <-].
Qed.

(** [validateAndAdjustSinkURI] is reconciliation followed by the check
    against the scheme. *)
Lemma validateAndAdjustSinkURI_unfold (u : URL) (s : SinkConfig) (next : N) :
  let r := applyParameterBySinkURI (Some u) s next in
  validateAndAdjustSinkURI (Some u) s next =
    (Return (validateAgainstScheme u (config_of r)), config_of r, next_of r).
Proof.
  intros r. unfold validateAndAdjustSinkURI. fold r.
  destruct (applyParameterBySinkURI_returns (Some u) s next) as (err & Herr & Hkind).
  fold r in Herr. destruct r as [[o s'] n']. unfold outcome_of in Herr. cbn in Herr.
  subst o. unfold config_of, next_of. cbn.
  destruct Hkind as [-> | ->]; [done|]. cbn. by rewrite andb_false_r.
Qed.

(** C10.  [validateAndAdjustSinkURI] never returns an
    [ErrIncompatibleSinkConfig] error (the protocol parser, which is not
    among the sources, is assumed not to build one): whatever
    [applyParameterBySinkURI] reports, validation goes on with the
    configuration as reconciliation left it, that is with the values of the
    URI, and returns what the check against the scheme returns. *)
Theorem validateAndAdjustSinkURI_swallows_incompatible (sinkURI : option URL)
    (s : SinkConfig) (next : N) :
  (forall p e, (ParseSinkProtocolFromString p).2 = Some e ->
               kind e <> ErrIncompatibleSinkConfig) ->
  (exists err,
     outcome_of (validateAndAdjustSinkURI sinkURI s next) = Return err /\
     Equal ErrIncompatibleSinkConfig err = false) /\
  (forall u, sinkURI = Some u ->
     let reconciled := applyParameterBySinkURI (Some u) s next in
     validateAndAdjustSinkURI sinkURI s next =
       (Return (validateAgainstScheme u (config_of reconciled)),
        config_of reconciled, next_of reconciled)).
Proof.
  intros Hparse. split.
  - destruct sinkURI as [u|]; [|by exists None].
    rewrite validateAndAdjustSinkURI_unfold. eexists. split; [done|].
    destruct (validateAgainstScheme _ _) as [e|] eqn:Hv; [|done].
    cbn. apply bool_decide_eq_false. by eapply validateAgainstScheme_kind.
  - intros u ->. apply validateAndAdjustSinkURI_unfold.
Qed.


(** C7.  For a URI that parses, [CheckCompatibilityWithSinkURI] returns nil
    and leaves the configuration alone when neither the URI parameters
    changed (reconciling the old configuration reports no incompatibility)
    nor the configuration parameters did; otherwise it reconciles the new
    configuration and returns the error of that reconciliation, except that
    an incompatibility is suppressed when reconciling the old configuration
    reported one too. *)
Theorem CheckCompatibilityWithSinkURI_spec (oldSinkConfig s : SinkConfig)
    (sinkURIStr : string) (sinkURI : URL) (next : N) :
  url_Parse sinkURIStr = inl sinkURI ->
  let old := applyParameterBySinkURI (Some sinkURI) oldSinkConfig next in
  let uriParamsChanged := Equal ErrIncompatibleSinkConfig (error_of old) in
  let reconciled := applyParameterBySinkURI (Some sinkURI) s (next_of old) in
  let result := CheckCompatibilityWithSinkURI oldSinkConfig sinkURIStr s next in
  (uriParamsChanged = false -> cfgParamsChanged s oldSinkConfig = false ->
   result = (Return None, s, next_of old)) /\
  (uriParamsChanged || cfgParamsChanged s oldSinkConfig = true ->
   result =
     (Return (if uriParamsChanged
                 && Equal ErrIncompatibleSinkConfig (error_of reconciled)
              then None else error_of reconciled),
      config_of reconciled, next_of reconciled)).
Proof.
  intros Hparse old uriParamsChanged reconciled result.
  unfold result, CheckCompatibilityWithSinkURI. rewrite Hparse.
  destruct (applyParameterBySinkURI_returns (Some sinkURI) oldSinkConfig next)
    as (err & Herr & _).
  fold old in Herr |- *.
  assert (error_of old = err) as Heo by (unfold error_of; by rewrite Herr).
  destruct old as [[o so] no] eqn:Hold. unfold outcome_of in Herr. cbn in Herr. subst o.
  unfold uriParamsChanged. rewrite Heo.
  unfold next_of in reconciled |- *. cbn [snd] in reconciled |- *.
  split.
  - intros -> ->. done.
  - intros Hchg.
    destruct (negb _ && negb _) eqn:Hno.
    { apply andb_true_iff in Hno as [Hu%negb_true_iff Hc%negb_true_iff].
      rewrite Hu, Hc in Hchg. done. }
    destruct (applyParameterBySinkURI_returns (Some sinkURI) s no)
      as (err' & Herr' & _).
    fold reconciled in Herr' |- *.
    assert (error_of reconciled = err') as Her by (unfold error_of; by rewrite Herr').
    rewrite Her. destruct reconciled as [[o' s'] n'].
    unfold outcome_of in Herr'. cbn in Herr'. subst o'.
    unfold config_of. cbn. by destruct (Equal _ err && Equal _ err').
Qed.

Lemma reconcile_set_FileIndexWidth (w : ptr Z) (u : URL) (s : SinkConfig) (next : N) :
  reconcile u (set_FileIndexWidth w s) next =
  (set_FileIndexWidth w (reconcile u s next).1.1.1, (reconcile u s next).1.1.2,
   inURI_of (reconcile u s next), inFile_of (reconcile u s next)).
Proof.
  unfold reconcile, inURI_of, inFile_of.
  repeat (first [case_decide | progress cbn]); try reflexivity; tauto.
Qed.

Lemma validateAndAdjustSinkURI_set_FileIndexWidth (w : ptr Z) (sinkURI : option URL)
    (s : SinkConfig) (next : N) :
  validateAndAdjustSinkURI sinkURI (set_FileIndexWidth w s) next =
  (outcome_of (validateAndAdjustSinkURI sinkURI s next),
   set_FileIndexWidth w (config_of (validateAndAdjustSinkURI sinkURI s next)),
   next_of (validateAndAdjustSinkURI sinkURI s next)).
Proof.
  destruct sinkURI as [u|]; [|done].
  rewrite !validateAndAdjustSinkURI_unfold, !applyParameterBySinkURI_unfold.
  rewrite reconcile_set_FileIndexWidth.
  unfold outcome_of, config_of, next_of, inURI_of, inFile_of. cbn.
  reflexivity.
Qed.

Lemma validateAndAdjustSinkURI_FileIndexWidth (sinkURI : option URL)
    (s : SinkConfig) (next : N) :
  FileIndexWidth (config_of (validateAndAdjustSinkURI sinkURI s next))
  = FileIndexWidth s.
Proof.
  destruct sinkURI as [u|]; [|done].
  rewrite validateAndAdjustSinkURI_unfold, applyParameterBySinkURI_unfold.
  unfold config_of. cbn. apply reconcile_config.
Qed.

Lemma validateStorage_outcome (s1 s2 : SinkConfig) (n1 n2 : N) :
  DateSeparator_ s1 = DateSeparator_ s2 ->
  CSVConfig_ s1 = CSVConfig_ s2 ->
  outcome_of (validateStorage s1 n1) = outcome_of (validateStorage s2 n2).
Proof.
  intros Hd Hc. unfold validateStorage. rewrite Hd.
  destruct (if (0 <? String.length (GetOrZero (DateSeparator_ s2)))%nat
            then _ else _); [done|].
  destruct (_ || _), (_ || _); unfold outcome_of; cbn; by rewrite Hc.
Qed.

(** The storage block, once past the date separator, clamps the width. *)
Lemma validateStorage_clamps (s s' : SinkConfig) (next next' : N) (err : option error) :
  validateStorage s next = (Return err, s', next') ->
  (0 <? String.length (GetOrZero (DateSeparator_ s)))%nat = false \/
  (exists d, DateSeparator_FromString (GetOrZero (DateSeparator_ s)) = inl d) ->
  (in_range (GetOrZero (FileIndexWidth s)) -> FileIndexWidth s' = FileIndexWidth s) /\
  (~ in_range (GetOrZero (FileIndexWidth s)) ->
   FileIndexWidth s' = Some (mkCell next DefaultFileIndexWidth)).
Proof.
  unfold validateStorage, in_range, MinFileIndexWidth, MaxFileIndexWidth.
  intros Hv Hdate.
  destruct (if (0 <? String.length _)%nat then _ else _) as [e|] eqn:Hd.
  { destruct Hdate as [Hz|(d & Hdd)]; [by rewrite Hz in Hd|].
    rewrite Hdd in Hd. by destruct (0 <? _)%nat. }
  destruct (GetOrZero (FileIndexWidth s) <? 6) eqn:Hlo;
    [|destruct (20 <? GetOrZero (FileIndexWidth s)) eqn:Hhi]; cbn in Hv;
    injection Hv as _ <- _; cbn; split; intros; try done; lia.
Qed.

Lemma validateStorage_accepts (s s' : SinkConfig) (next next' : N) :
  validateStorage s next = (Return None, s', next') ->
  (0 <? String.length (GetOrZero (DateSeparator_ s)))%nat = false \/
  (exists d, DateSeparator_FromString (GetOrZero (DateSeparator_ s)) = inl d).
Proof.
  unfold validateStorage.
  destruct (0 <? String.length _)%nat; [|by left].
  destruct (DateSeparator_FromString _) as [d|e]; [eauto|done].
Qed.

(** The outcome of [validateAndAdjust] does not depend on the file index
    width. *)
Lemma validateAndAdjust_outcome_width (w : ptr Z) (sinkURI : option URL)
    (s : SinkConfig) (next : N) :
  outcome_of (validateAndAdjust sinkURI (set_FileIndexWidth w s) next)
  = outcome_of (validateAndAdjust sinkURI s next).
Proof.
  unfold validateAndAdjust. rewrite validateAndAdjustSinkURI_set_FileIndexWidth.
  destruct (validateAndAdjustSinkURI sinkURI s next) as [[o s1] n1].
  unfold outcome_of at 1, config_of, next_of. cbn [fst snd].
  destruct o as [|[e|]]; [done..|].
  destruct sinkURI as [u|]; [|done].
  destruct (IsMySQLCompatibleScheme _); [done|].
  cbn [DispatchRules set_FileIndexWidth].
  destruct (adjustDispatchRules _) as [rules [e|]]; [done|].
  cbn. destruct (_ <? 0); [done|].
  destruct (Terminator s1); cbn; destruct (_ && _); try done;
    destruct (IsStorageScheme _); try done; by apply validateStorage_outcome.
Qed.

(** A configuration that validation accepts against a URI of a storage
    scheme has its width clamped. *)
Lemma validateAndAdjust_accepted_clamps (u : URL) (s s' : SinkConfig)
    (next next' : N) :
  IsStorageScheme (Scheme u) = true ->
  IsMySQLCompatibleScheme (Scheme u) = false ->
  validateAndAdjust (Some u) s next = (Return None, s', next') ->
  let w := GetOrZero (FileIndexWidth s) in
  (in_range w -> FileIndexWidth s' = FileIndexWidth s) /\
  (~ in_range w ->
   exists a, FileIndexWidth s' = Some (mkCell a DefaultFileIndexWidth)) /\
  (forall w', outcome_of (validateAndAdjust (Some u) (set_FileIndexWidth w' s) next)
              = Return None).
Proof.
  intros Hstorage Hmysql Hv w.
  assert (forall w', outcome_of (validateAndAdjust (Some u) (set_FileIndexWidth w' s) next)
                     = Return None) as Hindep.
  { intros w'. rewrite validateAndAdjust_outcome_width. by rewrite Hv. }
  cut ((in_range w -> FileIndexWidth s' = FileIndexWidth s) /\
       (~ in_range w ->
        exists a, FileIndexWidth s' = Some (mkCell a DefaultFileIndexWidth))); [tauto|].
  clear Hindep. unfold validateAndAdjust in Hv.
  pose proof (validateAndAdjustSinkURI_FileIndexWidth (Some u) s next) as Hw.
  destruct (validateAndAdjustSinkURI (Some u) s next) as [[o s1] n1].
  unfold config_of in Hw. cbn in Hw.
  destruct o as [|[e|]]; [done..|].
  rewrite Hmysql, Hstorage in Hv.
  destruct (adjustDispatchRules _) as [rules [e|]]; [done|].
  cbn in Hv. destruct (_ <? 0); [done|].
  destruct (Terminator s1); cbn in Hv; destruct (_ && _); try done.
  all: match type of Hv with validateStorage ?s2 ?n2 = _ =>
         pose proof (validateStorage_clamps s2 s' n2 next' None Hv
                       (validateStorage_accepts s2 s' n2 next' Hv)) as Hc end.
  all: cbn in Hc; rewrite Hw in Hc; fold w in Hc.
  all: destruct Hc as [Hin Hout]; eauto.
Qed.

(** The storage block changes the width only by clamping it. *)
Lemma validateStorage_width (s : SinkConfig) (next : N) :
  FileIndexWidth (config_of (validateStorage s next)) = FileIndexWidth s \/
  (~ in_range (GetOrZero (FileIndexWidth s)) /\
   FileIndexWidth (config_of (validateStorage s next))
   = Some (mkCell next DefaultFileIndexWidth)).
Proof.
  unfold validateStorage, in_range, MinFileIndexWidth, MaxFileIndexWidth, config_of.
  destruct (if (0 <? String.length _)%nat then _ else _) as [e|]; [by left|].
  destruct (GetOrZero (FileIndexWidth s) <? 6) eqn:Hlo;
    [|destruct (20 <? GetOrZero (FileIndexWidth s)) eqn:Hhi]; cbn;
    first [by left | right; split; [lia|done]].
Qed.

(** [validateAndAdjust] changes the width only by clamping it. *)
Lemma validateAndAdjust_width (sinkURI : option URL) (s : SinkConfig) (next : N) :
  let r := validateAndAdjust sinkURI s next in
  FileIndexWidth (config_of r) = FileIndexWidth s \/
  (~ in_range (GetOrZero (FileIndexWidth s)) /\
   exists a, FileIndexWidth (config_of r) = Some (mkCell a DefaultFileIndexWidth)).
Proof.
  cbv zeta. unfold validateAndAdjust.
  pose proof (validateAndAdjustSinkURI_FileIndexWidth sinkURI s next) as Hw.
  destruct (validateAndAdjustSinkURI sinkURI s next) as [[o s1] n1].
  unfold config_of in Hw |- *. cbn in Hw.
  destruct o as [|[e|]]; [by left..|].
  destruct sinkURI as [u|]; [|by left].
  destruct (IsMySQLCompatibleScheme _); [by left|].
  destruct (adjustDispatchRules _) as [rules [e|]]; [by left|].
  cbn. destruct (_ <? 0); [by left|].
  destruct (Terminator s1); cbn; destruct (_ && _); try (by left);
    destruct (IsStorageScheme _); try (by left).
  all: match goal with |- context [validateStorage ?s2 ?n2] =>
         destruct (validateStorage_width s2 n2) as [Heq|[Hout Heq]] end.
  all: unfold config_of in Heq; cbn in Heq |- *; rewrite Heq.
  all: cbn in *; rewrite ?Hw in *; eauto.
Qed.

(** C8.  Against a URI of a storage scheme, the file index width never
    causes a validation error (the outcome is the same whatever the width),
    a width inside [6, 20] is left as it is, and a width outside (an unset
    one included) is replaced by the default 20 in every configuration that
    validation accepts. *)
Theorem validateAndAdjust_FileIndexWidth (u : URL) (s : SinkConfig) (next : N) :
  IsStorageScheme (Scheme u) = true ->
  IsMySQLCompatibleScheme (Scheme u) = false ->
  let r := validateAndAdjust (Some u) s next in
  let w := GetOrZero (FileIndexWidth s) in
  (forall w', outcome_of (validateAndAdjust (Some u) (set_FileIndexWidth w' s) next)
              = outcome_of r) /\
  (in_range w -> FileIndexWidth (config_of r) = FileIndexWidth s) /\
  (~ in_range w -> outcome_of r = Return None ->
   exists a, FileIndexWidth (config_of r) = Some (mkCell a DefaultFileIndexWidth)).
Proof.
  intros Hstorage Hmysql r w.
  split; [intros w'; apply validateAndAdjust_outcome_width|].
  split.
  - intros Hin. destruct (validateAndAdjust_width (Some u) s next) as [Heq|[Hout _]];
      [exact Heq|done].
  - intros Hout Hok. unfold r in *.
    destruct (validateAndAdjust (Some u) s next) as [[o s'] n'] eqn:Hv.
    unfold outcome_of in Hok. cbn in Hok. subst o. unfold config_of. cbn.
    destruct (validateAndAdjust_accepted_clamps u s s' next n' Hstorage Hmysql Hv)
      as (_ & Hclamp & _). by apply Hclamp.
Qed.

(** The maps of [reconcile] only depend on the values of the two fields (and
    on whether the protocol is set). *)
Lemma reconcile_maps_ext (u : URL) (s1 s2 : SinkConfig) (n1 n2 : N) :
  GetOrZero (TxnAtomicity s1) = GetOrZero (TxnAtomicity s2) ->
  (Protocol s1 = None <-> Protocol s2 = None) ->
  GetOrZero (Protocol s1) = GetOrZero (Protocol s2) ->
  inURI_of (reconcile u s1 n1) = inURI_of (reconcile u s2 n2) /\
  inFile_of (reconcile u s1 n1) = inFile_of (reconcile u s2 n2).
Proof.
  intros Ht Hn Hp.
  destruct (reconcile_maps u s1 n1) as (Ht1 & Hp1 & Ho1).
  destruct (reconcile_maps u s2 n2) as (Ht2 & Hp2 & Ho2).
  cbv zeta in *. rewrite <- Ht in Ht2. rewrite <- Hp in Hp2.
  assert (forall k,
            inURI_of (reconcile u s1 n1) !! k = inURI_of (reconcile u s2 n2) !! k /\
            inFile_of (reconcile u s1 n1) !! k = inFile_of (reconcile u s2 n2) !! k)
    as Hk.
  { intros k.
    destruct (decide (k = TxnAtomicityKey)) as [->|Hk1].
    { clear Hp1 Hp2 Ho1 Ho2 Hn.
      destruct (decide _) in Ht1, Ht2; destruct Ht1 as [-> ->], Ht2 as [-> ->]; done. }
    destruct (decide (k = ProtocolKey)) as [->|Hk2].
    { clear Ht1 Ht2 Ho1 Ho2.
      destruct (decide _) as [c1|c1] in Hp1; destruct (decide _) as [c2|c2] in Hp2;
        try (exfalso; tauto);
        destruct Hp1 as [-> ->], Hp2 as [-> ->]; done. }
    destruct (Ho1 k Hk1 Hk2) as [-> ->]. destruct (Ho2 k Hk1 Hk2) as [-> ->]. done. }
  split; apply map_eq; intros k; apply Hk.
Qed.

(** A new configuration that carries the values of the old one is
    compatible, whether or not its pointers are those of the old one. *)
Lemma CheckCompatibilityWithSinkURI_same_values (oldSinkConfig s : SinkConfig)
    (sinkURIStr : string) (sinkURI : URL) (next : N) :
  url_Parse sinkURIStr = inl sinkURI ->
  GetOrZero (TxnAtomicity s) = GetOrZero (TxnAtomicity oldSinkConfig) ->
  (Protocol s = None <-> Protocol oldSinkConfig = None) ->
  GetOrZero (Protocol s) = GetOrZero (Protocol oldSinkConfig) ->
  outcome_of (CheckCompatibilityWithSinkURI oldSinkConfig sinkURIStr s next)
  = Return None.
Proof.
  intros Hparse Ht Hn Hp.
  unfold CheckCompatibilityWithSinkURI. rewrite Hparse.
  rewrite !applyParameterBySinkURI_unfold.
  destruct (reconcile_maps_ext sinkURI s oldSinkConfig
              (reconcile sinkURI oldSinkConfig next).1.1.2 next Ht Hn Hp) as [-> ->].
  rewrite getError_same_size by apply reconcile_size.
  case_decide; cbn.
  - by destruct (negb _).
  - unfold Equal. cbn. rewrite bool_decide_eq_true_2 by done. done.
Qed.

End SinkConfig.

(** *** Worked examples *)

Import samples.

(** The sample parser only builds errors of its own kind. *)
Lemma parse_kind (p : string) (e : error) :
  (ParseSinkProtocolFromString p).2 = Some e ->
  kind e <> ErrIncompatibleSinkConfig.
Proof.
  cbn. unfold parse. repeat case_decide; cbn; try done. by intros [= <-].
Qed.

(** C6, at the input where the code departs from it.  The claim: a pair is
    recorded in the two maps only when both sides supply a non-empty value
    and they differ.  With the protocol of the configuration set to the
    empty string and [protocol=open] in the URI, the protocol branch records
    the pair (open, empty) and the call returns [ErrIncompatibleSinkConfig];
    the atomicity branch, given an empty level and [table] in the URI,
    records nothing and the call returns nil. *)
Lemma applyParameterBySinkURI_empty_protocol :
  Protocol empty_protocol = Some (mkCell 1%N "") /\
  inURI_of (reconcile kafka_open empty_protocol 100) = {[ "protocol" := "open" ]} /\
  inFile_of (reconcile kafka_open empty_protocol 100) = {[ "protocol" := "" ]} /\
  outcome_of (applyParameterBySinkURI (Some kafka_open) empty_protocol 100)
  = Return (Some (GenWithStackByArgs ErrIncompatibleSinkConfig
                    ["protocol=open"; "protocol="])) /\
  inFile_of (reconcile kafka_table empty_atomicity 100) = ∅ /\
  outcome_of (applyParameterBySinkURI (Some kafka_table) empty_atomicity 100)
  = Return None.
Proof. repeat split; by vm_compute. Qed.

(** C10 on a configuration with protocol canal-json and a URI with
    protocol open: reconciliation reports the incompatibility, validation
    returns nil and the configuration carries the protocol of the URI. *)
Lemma validateAndAdjustSinkURI_swallows_incompatible_witness :
  (forall p e, (ParseSinkProtocolFromString p).2 = Some e ->
               kind e <> ErrIncompatibleSinkConfig) /\
  Equal ErrIncompatibleSinkConfig
    (error_of (applyParameterBySinkURI (Some kafka_open) canal_json 100)) = true /\
  validateAndAdjustSinkURI (Some kafka_open) canal_json 100
  = (Return None, set_Protocol (Some (mkCell 100%N "open")) empty, 101%N).
Proof.
  split; [exact parse_kind|]. split; [reflexivity|].
  destruct (validateAndAdjustSinkURI_swallows_incompatible
              (Some kafka_open) canal_json 100 parse_kind) as [_ Hgo].
  rewrite (Hgo kafka_open eq_refl). reflexivity.
Defined.

(** C7 on an old configuration without protocol, a new one with protocol
    canal-json and a URI with protocol open: the configuration changed,
    the old one raised no incompatibility, so the one of the new
    configuration is returned. *)
Lemma CheckCompatibilityWithSinkURI_spec_witness :
  let uri := "kafka://127.0.0.1:9092/topic?protocol=open" in
  url_Parse uri = inl kafka_open /\
  cfgParamsChanged canal_json empty = true /\
  CheckCompatibilityWithSinkURI empty uri canal_json 100
  = (Return (Some (GenWithStackByArgs ErrIncompatibleSinkConfig
                     ["protocol=open"; "protocol=canal-json"])),
     set_Protocol (Some (mkCell 101%N "open")) empty, 102%N).
Proof.
  intros uri.
  assert (url_Parse uri = inl kafka_open) as Hparse by reflexivity.
  split; [exact Hparse|]. split; [reflexivity|].
  destruct (CheckCompatibilityWithSinkURI_spec empty canal_json uri kafka_open 100 Hparse)
    as [_ Hchanged].
  rewrite Hchanged by reflexivity. reflexivity.
Defined.

(** C8 on a configuration with width 3 and a URI of the scheme s3. *)
Lemma validateAndAdjust_FileIndexWidth_witness :
  IsStorageScheme (Scheme s3_csv) = true /\
  IsMySQLCompatibleScheme (Scheme s3_csv) = false /\
  ~ in_range (GetOrZero (FileIndexWidth width3)) /\
  validateAndAdjust (Some s3_csv) width3 100 = (Return None, width3_adjusted, 103%N) /\
  (exists a, FileIndexWidth width3_adjusted = Some (mkCell a DefaultFileIndexWidth)) /\
  (forall w', outcome_of (validateAndAdjust (Some s3_csv) (set_FileIndexWidth w' width3) 100)
              = Return None).
Proof.
  assert (validateAndAdjust (Some s3_csv) width3 100
          = (Return None, width3_adjusted, 103%N)) as Hv by reflexivity.
  assert (~ in_range (GetOrZero (FileIndexWidth width3))) as Hout
    by (unfold in_range, MinFileIndexWidth; cbn; lia).
  assert (IsStorageScheme (Scheme s3_csv) = true) as Hstorage by reflexivity.
  assert (IsMySQLCompatibleScheme (Scheme s3_csv) = false) as Hmysql by reflexivity.
  destruct (validateAndAdjust_FileIndexWidth s3_csv width3 100 Hstorage Hmysql)
    as (Hany & _ & Hclamp).
  rewrite Hv in Hany, Hclamp.
  repeat split; try done. by apply Hclamp.
Defined.

(** A configuration that validation rejects before the storage block keeps
    its file index width. *)
Example validateAndAdjust_rejected_keeps_width :
  let s := mkSinkConfig None None [] None None None
             (Some (mkCell 2%N "week")) (Some (mkCell 1%N 3)) None in
  error_of (validateAndAdjust (Some s3_csv) s 100)
    = Some (WrapError ErrSinkInvalidConfig "week") /\
  FileIndexWidth (config_of (validateAndAdjust (Some s3_csv) s 100))
    = Some (mkCell 1%N 3).
Proof. split; reflexivity. Qed.

(** Scenario 6 of the spec. *)
Example reconcile_conflict :
  let uri := "kafka://127.0.0.1:9092/topic?protocol=open" in
  applyParameterBySinkURI (Some kafka_open) canal_json 100
  = (Return (Some (GenWithStackByArgs ErrIncompatibleSinkConfig
                     ["protocol=open"; "protocol=canal-json"])),
     set_Protocol (Some (mkCell 100%N "open")) empty, 101%N) /\
  outcome_of (CheckCompatibilityWithSinkURI empty uri
                (set_Protocol (Some (mkCell 100%N "open")) empty) 101)
  = Return None /\
  Equal ErrIncompatibleSinkConfig
    (error_of (CheckCompatibilityWithSinkURI empty uri canal_json 100)) = true.
Proof. repeat split; reflexivity. Qed.

(** [validateAndAdjust] reads [sinkURI.Scheme] of a nil URI. *)
Example validateAndAdjust_nil_URI :
  outcome_of (validateAndAdjust None empty 100) = Panic.
Proof. reflexivity. Qed.

End config_correct.

(** ** Further properties of the event table sink *)

Module tablesink_behaviour.

Import tablesink sort_correct tablesink_correct.

Section EventTableSink.

Context {E : Type} `{TableEvent E} `{Appender E}.

(** The order of [ResolvedTs] is reflexive and total. *)
Lemma compare_refl (r : ResolvedTs) : compare r r = Eq.
Proof.
  unfold compare. rewrite !N.compare_refl. done.
Qed.

Lemma EqualOrGreater_refl (r : ResolvedTs) : EqualOrGreater r r = true.
Proof. unfold EqualOrGreater. by rewrite compare_refl. Qed.

Lemma EqualOrGreater_total (r r1 : ResolvedTs) :
  EqualOrGreater r r1 = false -> EqualOrGreater r1 r = true.
Proof.
  unfold EqualOrGreater. rewrite (compare_antisym r1 r).
  destruct (compare r r1); cbn; done.
Qed.

(** Only the calls of [WriteEvents] hand events to the backend. *)
Lemma written_app (a b : list (Call E)) : written (a ++ b) = written a ++ written b.
Proof. unfold written. by rewrite fmap_app, concat_app. Qed.

Lemma written_addEvents (ids : list N) : written (E:=E) (CallAddEvent <$> ids) = [].
Proof. induction ids as [|i ids IH]; [done|]. unfold written in *. cbn. exact IH. Qed.

Lemma ordered_filter (P : E -> Prop) `{!forall x, Decision (P x)} (l : list E) :
  ordered l -> ordered (filter P l).
Proof.
  unfold ordered. induction 1 as [|a l Hs IH Hall]; [constructor|].
  rewrite filter_cons. case_decide; [|done].
  constructor; [done|]. apply Forall_forall. intros x Hx.
  apply list_elem_of_filter in Hx as [_ Hx].
  eapply Forall_forall in Hall; eauto.
Qed.

(** X1.  [UpdateResolvedTs] returns for every sink and every watermark,
    whether or not the buffer is ordered, and loses no event and writes none
    twice: the events it hands to the backend, followed by the buffer it
    leaves, are the buffer it found.  It leaves the start timestamp, the
    backend, the rows counter and the state as they were. *)
Theorem UpdateResolvedTs_conserves_events (r : ResolvedTs) (e : EventTableSink E) :
  exists e' calls res,
    UpdateResolvedTs r e = Returned e' calls res /\
    written calls ++ eventBuffer e' = eventBuffer e /\
    startTs e' = startTs e /\
    backendSink e' = backendSink e /\
    metricsTableSinkTotalRows e' = metricsTableSinkTotalRows e /\
    sinkState e' = sinkState e.
Proof.
  destruct (EqualOrGreater (maxResolvedTs e) r) eqn:Hge.
  - exists e, [], None. unfold UpdateResolvedTs. rewrite Hge. done.
  - destruct (UpdateResolvedTs_advance r e Hge) as (i & _ & _ & Hu).
    cbn zeta in Hu. eexists _, _, _. split; [exact Hu|].
    cbn. repeat split.
    rewrite written_app, written_addEvents. unfold written. cbn.
    rewrite wrapEvents_Event, app_nil_r. apply take_drop.
Qed.

(** X2.  [UpdateResolvedTs] keeps two invariants of the buffer: it stays
    ordered by commit timestamp, and it holds only events committed after
    the watermark [maxResolvedTs]; every event handed to the backend was
    committed at or before the watermark the call leaves. *)
Theorem UpdateResolvedTs_keeps_invariants (r : ResolvedTs) (e : EventTableSink E) :
  ordered (eventBuffer e) ->
  Forall (fun ev => Ts_of (maxResolvedTs e) < GetCommitTs ev) (eventBuffer e) ->
  exists e' calls res,
    UpdateResolvedTs r e = Returned e' calls res /\
    ordered (eventBuffer e') /\
    Forall (fun ev => Ts_of (maxResolvedTs e') < GetCommitTs ev) (eventBuffer e') /\
    Forall (fun ev => GetCommitTs ev <= Ts_of (maxResolvedTs e')) (written calls).
Proof.
  intros Hord Habove.
  destruct (EqualOrGreater (maxResolvedTs e) r) eqn:Hge.
  - exists e, [], None. unfold UpdateResolvedTs. rewrite Hge.
    repeat split; try done.
  - destruct (UpdateResolvedTs_advance r e Hge) as (i & Hi & _ & Hu).
    destruct (Search_commitTsAfter r (eventBuffer e) Hord) as (j & Hj & _ & Htake & Hdrop).
    rewrite Hi in Hj. injection Hj as <-.
    cbn zeta in Hu. eexists _, _, _. split; [exact Hu|]. cbn.
    rewrite Hdrop. split; [|split].
    + by apply ordered_filter.
    + unfold retained. apply Forall_forall. intros x Hx.
      by apply list_elem_of_filter in Hx as [Hx _].
    + rewrite written_app, written_addEvents. unfold written. cbn.
      rewrite wrapEvents_Event, app_nil_r, Htake.
      unfold drainUpTo. apply Forall_forall. intros x Hx.
      by apply list_elem_of_filter in Hx as [Hx _].
Qed.

(** X3.  The watermark [maxResolvedTs] never moves back: after
    [UpdateResolvedTs r] it is the greater of the old watermark and [r], and
    a second call with the same [r] changes nothing and calls neither the
    tracker nor the backend. *)
Theorem UpdateResolvedTs_watermark (r : ResolvedTs) (e : EventTableSink E) :
  exists e' calls res,
    UpdateResolvedTs r e = Returned e' calls res /\
    maxResolvedTs e'
      = (if EqualOrGreater (maxResolvedTs e) r then maxResolvedTs e else r) /\
    EqualOrGreater (maxResolvedTs e') (maxResolvedTs e) = true /\
    EqualOrGreater (maxResolvedTs e') r = true /\
    UpdateResolvedTs r e' = Returned e' [] None.
Proof.
  destruct (EqualOrGreater (maxResolvedTs e) r) eqn:Hge.
  - exists e, [], None. unfold UpdateResolvedTs. rewrite Hge.
    repeat split; try done. apply EqualOrGreater_refl.
  - destruct (UpdateResolvedTs_advance r e Hge) as (i & _ & _ & Hu).
    cbn zeta in Hu. eexists _, _, _. split; [exact Hu|]. cbn.
    repeat split.
    + by apply EqualOrGreater_total.
    + apply EqualOrGreater_refl.
    + unfold UpdateResolvedTs. cbn. by rewrite EqualOrGreater_refl.
Qed.


Lemma same_data_refl (e : EventTableSink E) : same_data e e.
Proof. by repeat split. Qed.

Lemma same_data_trans (e1 e2 e3 : EventTableSink E) :
  same_data e1 e2 -> same_data e2 e3 -> same_data e1 e3.
Proof.
  unfold same_data. intros (?&?&?&?) (?&?&?&?). repeat split; congruence.
Qed.

Lemma closing_fuel_same_data (fuel : nat) :
  (forall (e e' : EventTableSink E) ts,
     GetCheckpointTs_fuel fuel e = Some (e', ts) -> same_data e e') /\
  (forall (e e' : EventTableSink E) b,
     markAsClosed_fuel fuel e = Some (e', b) -> same_data e e').
Proof.
  induction fuel as [|fuel [IHg IHm]]; [split; intros; discriminate|].
  split.
  - intros e e' ts. cbn.
    case_decide.
    + destruct (checkClosed _ _) as [t [|]]; cbn.
      * destruct (markAsClosed_fuel fuel _) as [[e1 b]|] eqn:Hm; [|done]. cbn.
        apply IHm in Hm. destruct (advance _) as [t' ts']. intros [= <- <-].
        eapply same_data_trans; [|eapply same_data_trans; [exact Hm|]];
          by repeat split.
      * destruct (advance _) as [t' ts']. intros [= <- <-]. by repeat split.
    + cbn. destruct (advance _) as [t' ts']. intros [= <- <-]. by repeat split.
  - intros e e' b. cbn.
    case_decide; [intros [= <- <-]; apply same_data_refl|].
    unfold CompareAndSwap, Load. rewrite decide_True by done.
    destruct (GetCheckpointTs_fuel fuel _) as [[e1 ts]|] eqn:Hg; [|done].
    apply IHg in Hg. cbn. intros [= <- <-].
    eapply same_data_trans; [|exact Hg]. by repeat split.
Qed.

Lemma GetCheckpointTs_same_data (e : EventTableSink E) :
  same_data e (GetCheckpointTs e).1.
Proof.
  pose proof (GetCheckpointTs_fuel_enough enough e ltac:(unfold enough; lia)) as Hg.
  destruct (GetCheckpointTs e) as [e' ts].
  by apply (proj1 (closing_fuel_same_data enough)) in Hg.
Qed.

Lemma markAsClosed_same_data (e : EventTableSink E) :
  same_data e (markAsClosed e).1.
Proof.
  pose proof (markAsClosed_fuel_enough enough e ltac:(unfold enough; lia)) as Hm.
  destruct (markAsClosed e) as [e' b].
  by apply (proj2 (closing_fuel_same_data enough)) in Hm.
Qed.

Lemma freeze_loop_same_data (fuel : nat) (e e' : EventTableSink E) :
  freeze_loop fuel e = Some e' -> same_data e e'.
Proof.
  revert e. induction fuel as [|fuel IH]; intros e; [discriminate|]. cbn.
  case_decide; [intros [= <-]; apply same_data_refl|].
  unfold CompareAndSwap, Load. rewrite decide_True by done.
  destruct (GetCheckpointTs_fuel fuel _) as [[e1 ts]|] eqn:Hg; [|done].
  apply (proj1 (closing_fuel_same_data fuel)) in Hg. cbn. intros [= <-].
  eapply same_data_trans; [|exact Hg]. by repeat split.
Qed.

Lemma freeze_same_data (e : EventTableSink E) : same_data e (freeze e).
Proof.
  pose proof (freeze_fuel_enough enough e ltac:(unfold enough; lia)) as Hf.
  unfold freeze_fuel in Hf. apply freeze_loop_same_data in Hf.
  eapply same_data_trans; [|exact Hf]. by repeat split.
Qed.

Lemma step_same_data (s : Step) (e : EventTableSink E) : same_data e (step s e).
Proof.
  destruct s; cbn [step].
  - apply freeze_same_data.
  - apply markAsClosed_same_data.
  - unfold Close.
    pose proof (freeze_same_data e) as Hf.
    destruct (waitClosed _ _ _) as [t|]; cbn [sink_of].
    + eapply same_data_trans; [exact Hf|].
      eapply same_data_trans; [|apply markAsClosed_same_data]. by repeat split.
    + eapply same_data_trans; [exact Hf|]. by repeat split.
  - unfold AsyncClose.
    pose proof (freeze_same_data e) as Hf.
    destruct (checkClosed _ _) as [t [|]]; cbn [fst].
    + eapply same_data_trans; [exact Hf|].
      eapply same_data_trans; [|apply markAsClosed_same_data]. by repeat split.
    + eapply same_data_trans; [exact Hf|]. by repeat split.
  - apply GetCheckpointTs_same_data.
  - by repeat split.
  - by repeat split.
Qed.

(** X5.  The close protocol leaves the data fields of the sink alone: over
    any sequence of [freeze], [markAsClosed], [Close], [AsyncClose] and
    [GetCheckpointTs] (with backend acks and deaths between them) the event
    buffer, the watermark, the start timestamp and the rows counter stay as
    they were.  Events still in the buffer when the sink is closed stay in
    the buffer: closing does not drain it. *)
Theorem close_protocol_keeps_buffer (steps : list Step) (e : EventTableSink E) :
  eventBuffer (run steps e) = eventBuffer e /\
  maxResolvedTs (run steps e) = maxResolvedTs e /\
  startTs (run steps e) = startTs e /\
  metricsTableSinkTotalRows (run steps e) = metricsTableSinkTotalRows e.
Proof.
  change (same_data e (run steps e)).
  revert e. induction steps as [|s steps IH]; intros e; [apply same_data_refl|].
  unfold run. cbn. eapply same_data_trans; [apply step_same_data|apply IH].
Qed.

Lemma advance_frontier (t : progressTracker) :
  (advance t).2 = frontier (advance t).1.
Proof. unfold advance. by destruct (advance_queue _ _ _) as [[? ?] ?]. Qed.

(** X6.  [GetCheckpointTs] is where a stopping sink gets closed: a sink in
    state Stopping becomes Stopped when the backend is dead or the tracker
    has nothing pending, and in every other case the state is left as it
    is; the timestamp returned is the frontier of the tracker as the call
    leaves it. *)
Theorem GetCheckpointTs_closes (e : EventTableSink E) :
  sinkState (GetCheckpointTs e).1
    = (if decide (sinkState e = TableSinkStopping /\
                  (Dead (backendSink e) = true \/ queue (tracker e) = []))
       then TableSinkStopped else sinkState e) /\
  (GetCheckpointTs e).2 = frontier (tracker (GetCheckpointTs e).1).
Proof.
  unfold GetCheckpointTs, enough. cbn.
  unfold Load, CompareAndSwap, checkClosed.
  destruct (sinkState e) eqn:Hs, (Dead (backendSink e)) eqn:Hd,
    (queue (tracker e)) as [|it q] eqn:Hq; cbn; rewrite ?Hq, ?Hs; cbn;
    repeat (first [ case_decide
                  | progress cbn
                  | progress rewrite ?Hq, ?Hs
                  | match goal with
                    | |- context [advance ?t] =>
                        pose proof (advance_frontier t);
                        destruct (advance t) as [? ?]
                    end ]);
    try done; try (exfalso; intuition congruence).
Qed.

Lemma advance_frozen (t : progressTracker) : frozen (advance t).1 = frozen t.
Proof. unfold advance. by destruct (advance_queue _ _ _) as [[? ?] ?]. Qed.

Lemma checkClosed_frozen (dead : bool) (t : progressTracker) :
  frozen (checkClosed dead t).1 = frozen t.
Proof. unfold checkClosed. by destruct dead. Qed.

Lemma closing_fuel_frozen (fuel : nat) :
  (forall (e e' : EventTableSink E) ts,
     GetCheckpointTs_fuel fuel e = Some (e', ts) ->
     frozen (tracker e') = frozen (tracker e)) /\
  (forall (e e' : EventTableSink E) b,
     markAsClosed_fuel fuel e = Some (e', b) ->
     frozen (tracker e') = frozen (tracker e)).
Proof.
  induction fuel as [|fuel [IHg IHm]]; [split; intros; discriminate|].
  split.
  - intros e e' ts. cbn.
    case_decide.
    + pose proof (checkClosed_frozen (Dead (backendSink e)) (tracker e)) as Hc.
      destruct (checkClosed _ _) as [t [|]]; cbn in Hc |- *.
      * destruct (markAsClosed_fuel fuel _) as [[e1 b]|] eqn:Hm; [|done]. cbn.
        apply IHm in Hm. cbn in Hm.
        pose proof (advance_frozen (tracker e1)) as Ha.
        destruct (advance _) as [t' ts']. intros [= <- <-]. cbn in *. congruence.
      * pose proof (advance_frozen t) as Ha.
        destruct (advance _) as [t' ts']. intros [= <- <-]. cbn in *. congruence.
    + cbn. pose proof (advance_frozen (tracker e)) as Ha.
      destruct (advance _) as [t' ts']. intros [= <- <-]. cbn in *. congruence.
  - intros e e' b. cbn.
    case_decide; [by intros [= <- <-]|].
    unfold CompareAndSwap, Load. rewrite decide_True by done.
    destruct (GetCheckpointTs_fuel fuel _) as [[e1 ts]|] eqn:Hg; [|done].
    apply IHg in Hg. cbn. intros [= <- <-]. exact Hg.
Qed.

Lemma markAsClosed_frozen (e : EventTableSink E) :
  frozen (tracker (markAsClosed e).1) = frozen (tracker e).
Proof.
  pose proof (markAsClosed_fuel_enough enough e ltac:(unfold enough; lia)) as Hm.
  destruct (markAsClosed e) as [e' b].
  by apply (proj2 (closing_fuel_frozen enough)) in Hm.
Qed.

Lemma freeze_loop_frozen (fuel : nat) (e e' : EventTableSink E) :
  freeze_loop fuel e = Some e' -> frozen (tracker e') = frozen (tracker e).
Proof.
  revert e. induction fuel as [|fuel IH]; intros e; [discriminate|]. cbn.
  case_decide; [by intros [= <-]|].
  unfold CompareAndSwap, Load. rewrite decide_True by done.
  destruct (GetCheckpointTs_fuel fuel _) as [[e1 ts]|] eqn:Hg; [|done].
  apply (proj1 (closing_fuel_frozen fuel)) in Hg. cbn. intros [= <-]. exact Hg.
Qed.

Lemma freeze_freezes (e : EventTableSink E) : frozen (tracker (freeze e)) = true.
Proof.
  pose proof (freeze_fuel_enough enough e ltac:(unfold enough; lia)) as Hf.
  unfold freeze_fuel in Hf. by apply freeze_loop_frozen in Hf.
Qed.

Lemma freeze_loop_backendSink (fuel : nat) (e e' : EventTableSink E) :
  freeze_loop fuel e = Some e' -> backendSink e' = backendSink e.
Proof.
  revert e. induction fuel as [|fuel IH]; intros e; [discriminate|]. cbn.
  case_decide; [by intros [= <-]|].
  unfold CompareAndSwap, Load. rewrite decide_True by done.
  destruct (GetCheckpointTs_fuel fuel _) as [[e1 ts]|] eqn:Hg; [|done].
  apply (proj1 (closing_fuel_forward fuel)) in Hg as [_ Hg]. cbn. intros [= <-].
  exact Hg.
Qed.

Lemma freeze_backendSink (e : EventTableSink E) :
  backendSink (freeze e) = backendSink e.
Proof.
  pose proof (freeze_fuel_enough enough e ltac:(unfold enough; lia)) as Hf.
  unfold freeze_fuel in Hf. by apply freeze_loop_backendSink in Hf.
Qed.

(** X7.  [AsyncClose] freezes the tracker in every state.  When it answers
    true the sink is Stopped.  When it answers false the backend is alive,
    the tracker still has items pending, and the sink is exactly as [freeze]
    left it: Stopping, or Stopped if it was Stopped before. *)
Theorem AsyncClose_result (e : EventTableSink E) :
  frozen (tracker (AsyncClose e).1) = true /\
  (if (AsyncClose e).2
   then sinkState (AsyncClose e).1 = TableSinkStopped
   else (sinkState (AsyncClose e).1 = TableSinkStopping
         \/ sinkState (AsyncClose e).1 = TableSinkStopped) /\
        AsyncClose e = (freeze e, false) /\
        Dead (backendSink e) = false /\
        queue (tracker (freeze e)) <> []).
Proof.
  unfold AsyncClose.
  pose proof (freeze_freezes e) as Hfr.
  pose proof (freeze_frozen e) as [Hns _].
  rewrite (freeze_backendSink e).
  pose proof (checkClosed_frozen (Dead (backendSink e)) (tracker (freeze e))) as Hc.
  unfold checkClosed in *.
  destruct (Dead (backendSink e)) eqn:Hd; cbn in *.
  - rewrite markAsClosed_frozen. cbn. split; [done|]. apply markAsClosed_stopped.
  - case_bool_decide as Hq; cbn.
    + rewrite markAsClosed_frozen. cbn. split; [done|]. apply markAsClosed_stopped.
    + split; [done|].
      assert (set_tracker (tracker (freeze e)) (freeze e) = freeze e) as ->
        by (by destruct (freeze e)).
      repeat split; try done.
      destruct (sinkState (freeze e)); [done|by left|by right].
Qed.

(** X23.  [Close] does not wait on a dead backend: whatever is still
    pending in the tracker, and whatever the other actors do meanwhile, the
    call returns, the sink is Stopped and the tracker frozen. *)
Theorem Close_dead_backend (pending : list Interference) (e : EventTableSink E) :
  Dead (backendSink e) = true ->
  exists c,
    Close pending e = Closed c /\
    sinkState c = TableSinkStopped /\
    frozen (tracker c) = true /\
    Close pending e = Close [] e.
Proof.
  intros Hdead. unfold Close.
  rewrite (freeze_backendSink e), Hdead.
  pose proof (freeze_freezes e) as Hfr.
  assert (forall p, waitClosed p true (tracker (freeze e))
                    = Some (checkClosed true (tracker (freeze e))).1) as Hw
    by (by intros [|i p]).
  rewrite (Hw pending), (Hw []).
  eexists. split; [done|]. split; [apply markAsClosed_stopped|].
  split; [|done]. rewrite markAsClosed_frozen. done.
Qed.

End EventTableSink.

(** *** Worked examples *)

Import samples.

(** X2 on the sink holding rows committed at 3, 5 and 7, and the
    watermark 6. *)
Lemma UpdateResolvedTs_keeps_invariants_witness :
  let r := NewResolvedTs 6 in
  let e := sink357 healthy in
  ordered (eventBuffer e) /\
  Forall (fun ev => Ts_of (maxResolvedTs e) < GetCommitTs ev) (eventBuffer e) /\
  exists e' calls res,
    UpdateResolvedTs r e = Returned e' calls res /\
    ordered (eventBuffer e') /\
    Forall (fun ev => Ts_of (maxResolvedTs e') < GetCommitTs ev) (eventBuffer e') /\
    Forall (fun ev => GetCommitTs ev <= Ts_of (maxResolvedTs e')) (written calls).
Proof.
  intros r e.
  assert (ordered (eventBuffer e)) as Ho by (repeat constructor; cbn; lia).
  assert (Forall (fun ev => Ts_of (maxResolvedTs e) < GetCommitTs ev) (eventBuffer e))
    as Ha by (repeat constructor; cbn; lia).
  split; [exact Ho|]. split; [exact Ha|].
  exact (UpdateResolvedTs_keeps_invariants r e Ho Ha).
Defined.

(** X23 on a sink whose backend died with the events committed at 3 and 5
    written but not acknowledged. *)
Lemma Close_dead_backend_witness :
  let e := step StepBackendDies (updated (NewResolvedTs 6) (sink357 healthy)) in
  Dead (backendSink e) = true /\
  queue (tracker e)
  = [EventPending 0; EventPending 1; ResolvedMarker (NewResolvedTs 6)] /\
  exists c, Close [] e = Closed c /\ sinkState c = TableSinkStopped.
Proof.
  intros e.
  assert (Dead (backendSink e) = true) as Hdead by reflexivity.
  destruct (Close_dead_backend [] e Hdead) as (c & Hclose & Hstopped & _).
  split; [exact Hdead|]. split; [reflexivity|]. eauto.
Defined.

End tablesink_behaviour.

(** ** Further properties of the sink configuration *)

Module config_behaviour.

Import config config_correct.

Local Open Scope Z_scope.

(** *** Strings *)

Lemma ToLower_idemp (s : string) : ToLower (ToLower s) = ToLower s.
Proof.
  induction s as [|c s IH]; [done|]. cbn. f_equal; [|done].
  unfold lower. cbv zeta.
  destruct (65 <=? Ascii.nat_of_ascii c)%nat eqn:H65;
    [destruct (Ascii.nat_of_ascii c <=? 90)%nat eqn:H90|];
    cbv [andb]; rewrite ?H65, ?H90; cbv [andb]; try done.
  apply Nat.leb_le in H90. apply Nat.leb_le in H65.
  rewrite Ascii.nat_ascii_embedding by lia.
  replace (Ascii.nat_of_ascii c + 32 <=? 90)%nat with false
    by (symmetry; apply Nat.leb_gt; lia).
  by destruct (65 <=? _)%nat.
Qed.

Lemma append_cons (x : Ascii.ascii) (a b : string) :
  String x a +:+ b = String x (a +:+ b).
Proof. reflexivity. Qed.

Lemma append_assoc (a b c : string) : (a +:+ b) +:+ c = a +:+ (b +:+ c).
Proof.
  induction a as [|x a IH]; [done|]. rewrite !append_cons. by f_equal.
Qed.

Lemma append_nil_r (a : string) : a +:+ "" = a.
Proof.
  induction a as [|x a IH]; [done|]. rewrite append_cons. by f_equal.
Qed.

Lemma length_append (a b : string) :
  String.length (a +:+ b) = (String.length a + String.length b)%nat.
Proof.
  induction a as [|x a IH]; [done|]. rewrite append_cons. cbn. by f_equal.
Qed.

Lemma substring_append (a b : string) :
  String.substring 0 (String.length a) (a +:+ b) = a.
Proof.
  induction a as [|x a IH]; [by destruct b|]. rewrite append_cons. cbn. by f_equal.
Qed.

Lemma getErrMsg_foldl (l : list (string * string)) (acc : string) :
  foldl (fun acc kv => acc +:+ kv.1 +:+ "=" +:+ kv.2 +:+ ", ") acc l
  = acc +:+ foldl (fun acc kv => acc +:+ kv.1 +:+ "=" +:+ kv.2 +:+ ", ") "" l.
Proof.
  revert acc. induction l as [|kv l IH]; intros acc; cbn; [by rewrite append_nil_r|].
  rewrite IH. rewrite (IH (_ +:+ _)). by rewrite append_assoc.
Qed.

Lemma getErrMsg_builder (l : list (string * string)) :
  l <> [] ->
  foldl (fun acc kv => acc +:+ kv.1 +:+ "=" +:+ kv.2 +:+ ", ") "" l
  = String.concat ", " ((fun kv => kv.1 +:+ "=" +:+ kv.2) <$> l) +:+ ", ".
Proof.
  induction l as [|kv l IH]; [done|]. intros _. cbn [foldl].
  rewrite getErrMsg_foldl. destruct l as [|kv' l].
  - cbn. rewrite append_nil_r. by rewrite !append_assoc.
  - rewrite IH by done. cbn [fmap list_fmap String.concat].
    rewrite !append_assoc. done.
Qed.

Lemma ContainsRune_bytes (s : string) (r : Ascii.ascii) :
  ContainsRune s r = true <-> r ∈ bytes s.
Proof.
  induction s as [|c s IH]; cbn.
  - split; [done|]. by intros ?%elem_of_nil.
  - rewrite orb_true_iff, bool_decide_eq_true, IH, elem_of_cons.
    intuition congruence.
Qed.

Lemma Contains_byte (s : string) (q : Ascii.ascii) :
  Contains s (String q EmptyString) = true <-> q ∈ bytes s.
Proof.
  unfold Contains.
  assert (forall s, is_Some (String.index 0 (String q EmptyString) s) <-> q ∈ bytes s)
    as Hidx.
  { clear s. induction s as [|c s IH]; cbn.
    - split; [by intros [? ?]|by intros ?%elem_of_nil].
    - rewrite elem_of_cons. destruct (Ascii.ascii_dec q c) as [->|Hne].
      + destruct s; cbn; split; eauto.
      + destruct (String.index 0 (String q EmptyString) s) as [n|] eqn:Hi.
        * split; [intros _; right; apply IH; eauto|eauto].
        * split; [by intros [? ?]|]. intros [?|Hin]; [done|].
          apply IH in Hin as [? ?]. done. }
  specialize (Hidx s).
  destruct (String.index 0 (String q EmptyString) s) as [n|].
  - split; [intros _; apply Hidx; eauto|done].
  - rewrite bool_decide_eq_true. split; [done|].
    intros Hin. apply Hidx in Hin as [? ?]. done.
Qed.

(** *** The functions that need nothing from other packages *)

(** X17.  [DateSeparator.String] and [DateSeparator.FromString] round-trip
    on the four separators, and [FromString] reads a string as the separator
    [d] exactly when the string lowered is the name of [d]: parsing is
    case-insensitive and accepts nothing else. *)
Theorem DateSeparator_round_trip (d : DateSeparator) (separator : string) :
  DateSeparator_FromString (DateSeparator_String d) = inl d /\
  (DateSeparator_FromString separator = inl d
   <-> ToLower separator = DateSeparator_String d) /\
  (DateSeparator_FromString separator = inl d ->
   DateSeparator_FromString (ToLower separator) = inl d).
Proof.
  split; [by destruct d|].
  assert (DateSeparator_FromString separator = inl d
          <-> ToLower separator = DateSeparator_String d) as Hiff.
  { unfold DateSeparator_FromString. cbn zeta.
    repeat case_decide; destruct d; cbn; split; intros Heq; try congruence. }
  split; [exact Hiff|].
  intros Hd. apply Hiff in Hd. unfold DateSeparator_FromString. cbn zeta.
  rewrite ToLower_idemp, Hd. by destruct d.
Qed.

(** X18.  [CSVConfig.validateAndAdjust] accepts a configuration exactly
    when the quote is empty or one byte that is neither CR nor LF and does
    not occur in the delimiter, the delimiter is not empty and holds neither
    CR nor LF, and the binary encoding method is hex or base64; the null
    string and the commit-ts flag are not looked at.  Every error is an
    [ErrSinkInvalidConfig], and a nil configuration is accepted. *)
Theorem CSVConfig_validateAndAdjust_accepts (c : CSVConfig) :
  (CSVConfig_validateAndAdjust (Some c) = None <->
     (Quote c = "" \/
      exists q, Quote c = String q EmptyString /\ q <> CR /\ q <> LF /\
                q ∉ bytes (Delimiter c)) /\
     Delimiter c <> "" /\
     (CR ∉ bytes (Delimiter c)) /\ (LF ∉ bytes (Delimiter c)) /\
     (BinaryEncodingMethod c = BinaryEncodingHex \/
      BinaryEncodingMethod c = BinaryEncodingBase64)) /\
  (forall err, CSVConfig_validateAndAdjust (Some c) = Some err ->
               kind err = ErrSinkInvalidConfig) /\
  CSVConfig_validateAndAdjust None = None.
Proof.
  split; [|split; [|done]].
  - unfold CSVConfig_validateAndAdjust.
    destruct (Quote c) as [|q [|q' rest]] eqn:HQ; cbn [String.length Nat.ltb Nat.leb].
    + cbn. destruct (Delimiter c) as [|d ds] eqn:HD; cbn [String.length Nat.eqb].
      { split; [done|]. intros (_ & ? & _); done. }
      rewrite <- HD.
      destruct (ContainsRune (Delimiter c) CR) eqn:HCR.
      { cbn. split; [done|]. intros (_ & _ & Hn & _).
        by apply ContainsRune_bytes in HCR. }
      destruct (ContainsRune (Delimiter c) LF) eqn:HLF.
      { cbn. split; [done|]. intros (_ & _ & _ & Hn & _).
        by apply ContainsRune_bytes in HLF. }
      cbn.
      assert (CR ∉ bytes (Delimiter c)) by (rewrite <- ContainsRune_bytes; congruence).
      assert (LF ∉ bytes (Delimiter c)) by (rewrite <- ContainsRune_bytes; congruence).
      assert (Delimiter c <> "") by (rewrite HD; done).
      repeat case_bool_decide; cbn; split; try done;
        first [ intuition eauto; fail | intuition congruence ].
    + cbn [Nat.ltb Nat.leb].
      destruct (bool_decide (q = CR)) eqn:HqCR.
      { cbn. apply bool_decide_eq_true in HqCR. split; [done|].
        intros ([?|(q0 & [= <-] & ? & _)] & _); done. }
      destruct (bool_decide (q = LF)) eqn:HqLF.
      { cbn. apply bool_decide_eq_true in HqLF. split; [done|].
        intros ([?|(q0 & [= <-] & _ & ? & _)] & _); done. }
      apply bool_decide_eq_false in HqCR, HqLF. cbn.
      destruct (Delimiter c) as [|d ds] eqn:HD; cbn [String.length Nat.eqb].
      { split; [done|]. intros (_ & ? & _); done. }
      rewrite <- HD.
      destruct (ContainsRune (Delimiter c) CR) eqn:HCR.
      { cbn. split; [done|]. intros (_ & _ & Hn & _).
        by apply ContainsRune_bytes in HCR. }
      destruct (ContainsRune (Delimiter c) LF) eqn:HLF.
      { cbn. split; [done|]. intros (_ & _ & _ & Hn & _).
        by apply ContainsRune_bytes in HLF. }
      cbn [orb andb].
      assert (CR ∉ bytes (Delimiter c)) by (rewrite <- ContainsRune_bytes; congruence).
      assert (LF ∉ bytes (Delimiter c)) by (rewrite <- ContainsRune_bytes; congruence).
      assert (Delimiter c <> "") by (rewrite HD; done).
      destruct (Contains (Delimiter c) (String q EmptyString)) eqn:HC.
      { apply Contains_byte in HC. split; [done|].
        intros ([?|(q0 & [= <-] & _ & _ & ?)] & _); done. }
      assert (q ∉ bytes (Delimiter c)) by (rewrite <- Contains_byte; congruence).
      repeat case_bool_decide; cbn; split; try done;
        first [ intuition eauto; fail | intuition congruence ].
    + change (1 <? String.length (String q (String q' rest)))%nat with true.
      split; [done|]. intros ([?|(q0 & ? & _)] & _); done.
  - intros err. unfold CSVConfig_validateAndAdjust.
    repeat (match goal with |- context [if ?b then _ else _] => destruct b end;
            [by intros [= <-]|]).
    by intros [= <-].
Qed.

(** X19.  The closure [getErrMsg] renders a map that is not empty as its
    entries [key=value] separated by a comma and a space, with nothing after
    the last entry: cutting two bytes off the builder removes the trailing
    separator and no more. *)
Theorem getErrMsg_joins (cfgIn : gmap string string) :
  cfgIn <> ∅ ->
  getErrMsg cfgIn
  = String.concat ", " ((fun kv => kv.1 +:+ "=" +:+ kv.2) <$> map_to_list cfgIn).
Proof.
  intros Hne. unfold getErrMsg. cbv zeta.
  rewrite getErrMsg_builder by (by intros ?%map_to_list_empty_iff).
  rewrite length_append. cbn [String.length].
  replace (_ + 2 - 2)%nat with (String.length (String.concat ", " ((fun kv => kv.1 +:+ "=" +:+ kv.2) <$> map_to_list cfgIn)))
    by lia.
  apply substring_append.
Qed.

(** *** The dispatch rules *)

Lemma adjustDispatchRules_accepts (rules : list DispatchRule) :
  (adjustDispatchRules rules).2 = None <->
  Forall (fun rule => DispatcherRule rule = "" \/ PartitionRule rule = "") rules.
Proof.
  induction rules as [|rule rules IH]; cbn; [by split|].
  rewrite Forall_cons.
  repeat case_bool_decide; cbn;
    try (destruct (adjustDispatchRules rules) as [rest err]; cbn in *;
         rewrite IH; tauto).
  split; [done|]. intros [[?|?] _]; done.
Qed.

Lemma adjustDispatchRules_normalised (rules : list DispatchRule) :
  (adjustDispatchRules rules).2 = None ->
  Forall2 normalised rules (adjustDispatchRules rules).1.
Proof.
  induction rules as [|rule rules IH]; cbn; [constructor|].
  repeat case_bool_decide; cbn; try done;
    destruct (adjustDispatchRules rules) as [rest err]; cbn in *;
    intros Herr; constructor; auto;
    unfold normalised; cbn; rewrite ?decide_True by done; rewrite ?decide_False by done;
    done.
Qed.

Lemma adjustDispatchRules_idemp (rules : list DispatchRule) :
  adjustDispatchRules (adjustDispatchRules rules).1 = adjustDispatchRules rules.
Proof.
  induction rules as [|rule rules IH]; cbn; [done|].
  repeat case_bool_decide; cbn;
    try (destruct (adjustDispatchRules rules) as [rest err]; cbn in *);
    repeat case_bool_decide; cbn; rewrite ?IH; try done.
Qed.

Section SinkConfig.

Context {X : Externals}.

(** X16.  [AtomicityLevel.validate] accepts exactly the levels for which
    [ShouldSplitTxn] answers true (the unset level and "none"), and the
    level "table" on a scheme that is not a message queue; every error is an
    [ErrSinkURIInvalid]. *)
Theorem AtomicityLevel_validate_accepts (l scheme : string) :
  (AtomicityLevel_validate l scheme = None
   <-> ShouldSplitTxn l = true
       \/ (l = tableTxnAtomicity /\ IsMQScheme scheme = false)) /\
  (ShouldSplitTxn l = true <-> l = unknownTxnAtomicity \/ l = noneTxnAtomicity) /\
  (forall err, AtomicityLevel_validate l scheme = Some err ->
               kind err = ErrSinkURIInvalid).
Proof.
  split; [|split].
  - unfold AtomicityLevel_validate, ShouldSplitTxn. cbn zeta.
    repeat case_decide; subst; cbn; try (destruct (IsMQScheme scheme)); cbn;
      rewrite ?bool_decide_eq_true; split; intros Hx; try done;
      try (by left); try (by right);
      try (destruct Hx as [Hx|[Hx Hy]]; done).
  - unfold ShouldSplitTxn. cbn zeta. case_decide; subst; rewrite bool_decide_eq_true.
    + split; [by left|done].
    + split; [by right|]. intros [?|?]; done.
  - intros err. apply AtomicityLevel_validate_kind.
Qed.

Lemma reconcile_agreeing (u : URL) (s : SinkConfig) (next : N) :
  (Values_Get TxnAtomicityKey (Query u) <> "" ->
   GetOrZero (TxnAtomicity s) = Values_Get TxnAtomicityKey (Query u)) ->
  (Values_Get ProtocolKey (Query u) <> "" ->
   GetOrZero (Protocol s) = Values_Get ProtocolKey (Query u)) ->
  inURI_of (reconcile u s next) = ∅ /\ inFile_of (reconcile u s next) = ∅.
Proof.
  intros Ht Hp.
  destruct (reconcile_maps u s next) as (Htxn & Hproto & Hother).
  cbv zeta in Htxn, Hproto, Hother.
  destruct (decide (_ /\ _)) as [(Ha & _ & Hb)|_] in Htxn;
    [exfalso; by apply Hb, Ht|].
  destruct (decide (_ /\ _)) as [(Ha & _ & Hb)|_] in Hproto;
    [exfalso; by apply Hb, Hp|].
  split; apply map_eq; intros k; rewrite lookup_empty;
    destruct (decide (k = TxnAtomicityKey)) as [->|Hk1]; try tauto;
    destruct (decide (k = ProtocolKey)) as [->|Hk2]; try tauto;
    by apply Hother.
Qed.

(** X8.  Reconciliation converges: [applyParameterBySinkURI] applied a
    second time against the same URI, on the configuration the first call
    left, returns nil and leaves the same protocol and atomicity level (in
    fresh cells when the URI carries them). *)
Theorem applyParameterBySinkURI_converges (u : URL) (s : SinkConfig) (next : N) :
  let r1 := applyParameterBySinkURI (Some u) s next in
  let r2 := applyParameterBySinkURI (Some u) (config_of r1) (next_of r1) in
  outcome_of r2 = Return None /\
  GetOrZero (TxnAtomicity (config_of r2)) = GetOrZero (TxnAtomicity (config_of r1)) /\
  GetOrZero (Protocol (config_of r2)) = GetOrZero (Protocol (config_of r1)) /\
  (TxnAtomicity (config_of r2) = None <-> TxnAtomicity (config_of r1) = None) /\
  (Protocol (config_of r2) = None <-> Protocol (config_of r1) = None).
Proof.
  cbv zeta.
  rewrite (applyParameterBySinkURI_unfold u s next).
  unfold config_of, next_of, outcome_of. cbn [fst snd].
  set (s1 := (reconcile u s next).1.1.1).
  set (n1 := (reconcile u s next).1.1.2).
  rewrite (applyParameterBySinkURI_unfold u s1 n1). cbn [fst snd].
  destruct (reconcile_config u s next) as (Ht1 & Hp1 & _). cbv zeta in Ht1, Hp1.
  fold s1 in Ht1, Hp1.
  destruct (reconcile_config u s1 n1) as (Ht2 & Hp2 & _). cbv zeta in Ht2, Hp2.
  set (s2 := (reconcile u s1 n1).1.1.1) in *.
  assert (inURI_of (reconcile u s1 n1) = ∅ /\ inFile_of (reconcile u s1 n1) = ∅)
    as [-> ->].
  { apply reconcile_agreeing.
    - intros Hne. rewrite decide_False in Ht1 by done.
      destruct Ht1 as [a ->]. done.
    - intros Hne. rewrite decide_False in Hp1 by done.
      destruct Hp1 as [a ->]. done. }
  split; [done|].
  destruct (decide (Values_Get TxnAtomicityKey (Query u) = "")) as [Et|Et];
  destruct (decide (Values_Get ProtocolKey (Query u) = "")) as [Ep|Ep];
    repeat match goal with H : ex _ |- _ => destruct H as [? H] end;
    rewrite Ht2, Hp2, ?Ht1, ?Hp1; cbn; done.
Qed.

Lemma reconcile_plain (u : URL) (s : SinkConfig) (next : N) :
  Values_Get TxnAtomicityKey (Query u) = "" ->
  Values_Get ProtocolKey (Query u) = "" ->
  reconcile u s next = (s, next, ∅, ∅).
Proof.
  intros Ht Hp. unfold reconcile. cbv zeta. rewrite Ht, Hp.
  rewrite !decide_False by (unfold unknownTxnAtomicity; tauto). done.
Qed.

(** X9.  Called on a receiver and with an old configuration that are not
    nil (the configurations the model holds; see
    [CheckCompatibilityWithSinkURI]), [CheckCompatibilityWithSinkURI]
    returns nil, an [ErrIncompatibleSinkConfig], or, when the URI does not
    parse, an [ErrSinkURIInvalid] around the parse error with the
    configuration untouched.  A URI that carries neither protocol nor
    transaction atomicity gives nil and changes nothing, whatever the two
    configurations hold. *)
Theorem CheckCompatibilityWithSinkURI_outcomes (oldSinkConfig s : SinkConfig)
    (sinkURIStr : string) (next : N) :
  let result := CheckCompatibilityWithSinkURI oldSinkConfig sinkURIStr s next in
  (exists err,
     outcome_of result = Return err /\
     (err = None \/ Equal ErrIncompatibleSinkConfig err = true \/
      (Equal ErrSinkURIInvalid err = true /\
       exists cause, url_Parse sinkURIStr = inr cause))) /\
  (forall cause, url_Parse sinkURIStr = inr cause ->
     result = (Return (Some (WrapError ErrSinkURIInvalid cause)), s, next)) /\
  (forall sinkURI, url_Parse sinkURIStr = inl sinkURI ->
     Values_Get TxnAtomicityKey (Query sinkURI) = "" ->
     Values_Get ProtocolKey (Query sinkURI) = "" ->
     result = (Return None, s, next)).
Proof.
  cbv zeta. unfold CheckCompatibilityWithSinkURI.
  destruct (url_Parse sinkURIStr) as [u|cause] eqn:Hparse.
  - split; [|split; [done|]].
    + destruct (applyParameterBySinkURI_returns (Some u) oldSinkConfig next)
        as (e1 & H1 & _).
      destruct (applyParameterBySinkURI (Some u) oldSinkConfig next) as [[o1 s1] n1].
      unfold outcome_of in H1. cbn in H1. subst o1.
      destruct (_ && _); [exists None; by split; [|left]|].
      destruct (applyParameterBySinkURI_returns (Some u) s n1) as (e2 & H2 & Hk).
      destruct (applyParameterBySinkURI (Some u) s n1) as [[o2 s2] n2].
      unfold outcome_of in H2. cbn in H2. subst o2.
      destruct (_ && _); [exists None; by split; [|left]|].
      exists e2. split; [done|]. destruct Hk; eauto.
    + intros sinkURI [= <-] Ht Hp.
      rewrite !applyParameterBySinkURI_unfold, !reconcile_plain by done.
      unfold inURI_of, inFile_of. cbn.
      by destruct (negb (cfgParamsChanged s oldSinkConfig)).
  - split; [|split; [|done]].
    + eexists. split; [done|]. right. right. split; [done|]. eauto.
    + by intros c [= <-].
Qed.

Lemma validateAndAdjust_unfold (u : URL) (s : SinkConfig) (next : N) :
  let r := applyParameterBySinkURI (Some u) s next in
  let s1 := config_of r in
  let n1 := next_of r in
  validateAndAdjust (Some u) s next =
    match validateAgainstScheme u s1 with
    | Some err => (Return (Some err), s1, n1)
    | None =>
        if IsMySQLCompatibleScheme (Scheme u) then (Return None, s1, n1)
        else
          let s2 := set_DispatchRules (adjustDispatchRules (DispatchRules s1)).1 s1 in
          match (adjustDispatchRules (DispatchRules s1)).2 with
          | Some err => (Return (Some err), s2, n1)
          | None =>
              if GetOrZero (EncoderConcurrency s1) <? 0 then
                (Return (Some (GenWithStack ErrSinkInvalidConfig
                   "encoder-concurrency should greater than 0, but got %d")),
                 s2, n1)
              else
                let s3 := match Terminator s1 with
                          | None => set_Terminator (Some (mkCell n1 CRLF)) s2
                          | Some _ => s2
                          end in
                let n3 := match Terminator s1 with
                          | None => N.succ n1
                          | Some _ => n1
                          end in
                if GetOrZero (DeleteOnlyOutputHandleKeyColumns s1)
                   && bool_decide ((ParseSinkProtocolFromString
                                      (GetOrZero (Protocol s1))).1 = ProtocolCsv) then
                  (Return (Some (GenWithStack ErrSinkInvalidConfig
                     ("CSV protocol always output all columns for the delete event, "
                      +:+ "do not set `delete-only-output-handle-key-columns` to true"))),
                   s3, n3)
                else if IsStorageScheme (Scheme u) then validateStorage s3 n3
                else (Return None, s3, n3)
          end
    end.
Proof.
  intros r s1 n1. unfold validateAndAdjust.
  rewrite validateAndAdjustSinkURI_unfold. fold r. fold s1. fold n1.
  destruct (validateAgainstScheme u s1) as [err|]; [done|].
  destruct (IsMySQLCompatibleScheme _); [done|].
  destruct (adjustDispatchRules (DispatchRules s1)) as [rules [err|]]; [done|].
  cbn. destruct (_ <? 0); [done|].
  destruct (Terminator s1); cbn; done.
Qed.


Lemma reconciled_fields (u : URL) (s : SinkConfig) (next : N) :
  let s1 := config_of (applyParameterBySinkURI (Some u) s next) in
  DispatchRules s1 = DispatchRules s /\
  CSVConfig_ s1 = CSVConfig_ s /\
  EncoderConcurrency s1 = EncoderConcurrency s /\
  Terminator s1 = Terminator s /\
  DateSeparator_ s1 = DateSeparator_ s /\
  FileIndexWidth s1 = FileIndexWidth s /\
  DeleteOnlyOutputHandleKeyColumns s1 = DeleteOnlyOutputHandleKeyColumns s.
Proof.
  cbv zeta. rewrite applyParameterBySinkURI_unfold. unfold config_of. cbn [fst snd].
  apply reconcile_config.
Qed.

Lemma set_FileIndexWidth_id (s : SinkConfig) :
  set_FileIndexWidth (FileIndexWidth s) s = s.
Proof. by destruct s. Qed.

Lemma validateStorage_config (s : SinkConfig) (next : N) :
  exists w, config_of (validateStorage s next) = set_FileIndexWidth w s.
Proof.
  unfold validateStorage, config_of.
  destruct (if (0 <? String.length _)%nat then _ else _) as [e|];
    [exists (FileIndexWidth s); by destruct s|].
  destruct (_ || _); cbn; [eauto|].
  exists (FileIndexWidth s); by destruct s.
Qed.

Lemma validateStorage_accepted (s s' : SinkConfig) (next next' : N) :
  validateStorage s next = (Return None, s', next') ->
  (GetOrZero (DateSeparator_ s) = ""
   \/ exists d, DateSeparator_FromString (GetOrZero (DateSeparator_ s)) = inl d) /\
  CSVConfig_validateAndAdjust (CSVConfig_ s) = None /\
  in_range (GetOrZero (FileIndexWidth s')).
Proof.
  unfold validateStorage. intros Hv.
  assert (GetOrZero (DateSeparator_ s) = ""
          \/ exists d, DateSeparator_FromString (GetOrZero (DateSeparator_ s)) = inl d)
    as Hdate.
  { destruct (0 <? String.length _)%nat eqn:Hlen.
    - destruct (DateSeparator_FromString _) as [d|e]; [eauto|done].
    - left. apply Nat.ltb_ge in Hlen.
      destruct (GetOrZero (DateSeparator_ s)); [done|]. cbn in Hlen. lia. }
  split; [exact Hdate|].
  destruct (if (0 <? String.length _)%nat then _ else _) as [e|]; [done|].
  unfold in_range, DefaultFileIndexWidth, MinFileIndexWidth, MaxFileIndexWidth in *.
  destruct (_ || _) eqn:Hw; cbn in Hv; injection Hv as Hcsv <- <-;
    (split; [exact Hcsv|]); cbn; [lia|].
  apply orb_false_iff in Hw as [H1 H2]. lia.
Qed.

(** What an accepted validation against a scheme that is not MySQL
    compatible went through. *)
Lemma validateAndAdjust_accepted (u : URL) (s s' : SinkConfig) (next next' : N) :
  IsMySQLCompatibleScheme (Scheme u) = false ->
  validateAndAdjust (Some u) s next = (Return None, s', next') ->
  let s1 := config_of (applyParameterBySinkURI (Some u) s next) in
  let n1 := next_of (applyParameterBySinkURI (Some u) s next) in
  let s3 := match Terminator s with
            | None => set_Terminator (Some (mkCell n1 CRLF))
                        (set_DispatchRules (adjustDispatchRules (DispatchRules s)).1 s1)
            | Some _ => set_DispatchRules (adjustDispatchRules (DispatchRules s)).1 s1
            end in
  validateAgainstScheme u s1 = None /\
  (adjustDispatchRules (DispatchRules s)).2 = None /\
  (GetOrZero (EncoderConcurrency s) <? 0) = false /\
  GetOrZero (DeleteOnlyOutputHandleKeyColumns s)
    && bool_decide ((ParseSinkProtocolFromString (GetOrZero (Protocol s1))).1
                    = ProtocolCsv) = false /\
  (if IsStorageScheme (Scheme u)
   then exists n3, validateStorage s3 n3 = (Return None, s', next')
   else s' = s3).
Proof.
  intros Hmysql Hv s1 n1 s3. rewrite validateAndAdjust_unfold in Hv.
  cbv zeta in Hv. fold s1 in Hv. fold n1 in Hv.
  destruct (reconciled_fields u s next) as (Hr & Hc & He & Ht & Hd & Hw & Ho).
  cbv zeta in Hr, Hc, He, Ht, Hd, Hw, Ho. fold s1 in Hr, Hc, He, Ht, Hd, Hw, Ho.
  rewrite Hmysql, Hr, He, Ht, Ho in Hv.
  destruct (validateAgainstScheme u s1) as [err|]; [done|].
  destruct (adjustDispatchRules (DispatchRules s)).2 as [err|] eqn:Hrules; [done|].
  destruct (_ <? 0) eqn:Henc; [done|].
  destruct (_ && _) eqn:Hdel; [done|].
  repeat split; try done.
  destruct (IsStorageScheme _).
  - subst s3. destruct (Terminator s); eauto.
  - subst s3. destruct (Terminator s); by injection Hv as <- <-.
Qed.

(** X12.  When [validateAndAdjust] accepts a configuration against a
    scheme that is not MySQL compatible, no rule had both a dispatcher and a
    partition, and every rule is left normalised: the dispatcher is cleared,
    the partition holds the old dispatcher when there was one, matcher and
    topic are as they were.  Validating the rules again finds nothing to
    change. *)
Theorem validateAndAdjust_dispatch_rules (u : URL) (s s' : SinkConfig)
    (next next' : N) :
  IsMySQLCompatibleScheme (Scheme u) = false ->
  validateAndAdjust (Some u) s next = (Return None, s', next') ->
  Forall (fun rule => DispatcherRule rule = "" \/ PartitionRule rule = "")
         (DispatchRules s) /\
  Forall2 normalised (DispatchRules s) (DispatchRules s') /\
  adjustDispatchRules (DispatchRules s') = (DispatchRules s', None).
Proof.
  intros Hmysql Hv.
  destruct (validateAndAdjust_accepted u s s' next next' Hmysql Hv)
    as (_ & Hrules & _ & _ & Hs'). cbv zeta in Hs'.
  assert (DispatchRules s' = (adjustDispatchRules (DispatchRules s)).1) as ->.
  { destruct (IsStorageScheme _).
    - destruct Hs' as [n3 Hs'].
      match type of Hs' with validateStorage ?s3 ?n3 = _ =>
        destruct (validateStorage_config s3 n3) as [w Hw] end.
      rewrite Hs' in Hw. unfold config_of in Hw. cbn in Hw. subst s'.
      by destruct (Terminator s).
    - subst s'. by destruct (Terminator s). }
  split; [by apply adjustDispatchRules_accepts|].
  split; [by apply adjustDispatchRules_normalised|].
  rewrite adjustDispatchRules_idemp.
  destruct (adjustDispatchRules (DispatchRules s)) as [a b]. cbn in *.
  by subst b.
Qed.

(** X13.  When [validateAndAdjust] accepts a configuration against a
    scheme that is not MySQL compatible, a terminator that was set is kept
    (an empty one included) and an unset one becomes CR LF, the encoder
    concurrency is unchanged and not negative, and
    [DeleteOnlyOutputHandleKeyColumns] is not on together with the csv
    protocol. *)
Theorem validateAndAdjust_accepted_settings (u : URL) (s s' : SinkConfig)
    (next next' : N) :
  IsMySQLCompatibleScheme (Scheme u) = false ->
  validateAndAdjust (Some u) s next = (Return None, s', next') ->
  (match Terminator s with
   | Some c => Terminator s' = Some c
   | None => exists a, Terminator s' = Some (mkCell a CRLF)
   end) /\
  EncoderConcurrency s' = EncoderConcurrency s /\
  0 <= GetOrZero (EncoderConcurrency s') /\
  DeleteOnlyOutputHandleKeyColumns s' = DeleteOnlyOutputHandleKeyColumns s /\
  (GetOrZero (DeleteOnlyOutputHandleKeyColumns s') = true ->
   (ParseSinkProtocolFromString (GetOrZero (Protocol s'))).1 <> ProtocolCsv).
Proof.
  intros Hmysql Hv.
  destruct (validateAndAdjust_accepted u s s' next next' Hmysql Hv)
    as (_ & _ & Henc & Hdel & Hs'). cbv zeta in Hs', Hdel.
  destruct (reconciled_fields u s next) as (Hr & Hc & He & Ht & Hd & Hw & Ho).
  cbv zeta in Hr, Hc, He, Ht, Hd, Hw, Ho.
  set (s1 := config_of (applyParameterBySinkURI (Some u) s next)) in *.
  set (n1 := next_of (applyParameterBySinkURI (Some u) s next)) in *.
  assert (exists w, s' = set_FileIndexWidth w
            match Terminator s with
            | None => set_Terminator (Some (mkCell n1 CRLF))
                        (set_DispatchRules (adjustDispatchRules (DispatchRules s)).1 s1)
            | Some _ => set_DispatchRules (adjustDispatchRules (DispatchRules s)).1 s1
            end) as [w ->].
  { destruct (IsStorageScheme _).
    - destruct Hs' as [n3 Hs'].
      match type of Hs' with validateStorage ?s3 ?n3 = _ =>
        destruct (validateStorage_config s3 n3) as [w Hcfg] end.
      rewrite Hs' in Hcfg. unfold config_of in Hcfg. cbn in Hcfg. eauto.
    - subst s'. eexists. symmetry. apply set_FileIndexWidth_id. }
  apply Z.ltb_ge in Henc.
  destruct (Terminator s) as [c|] eqn:HT; cbn; rewrite ?Ht, ?He, ?Ho;
    (split; [eauto|]); (split; [done|]); (split; [done|]); (split; [done|]);
    intros Hon; rewrite Hon in Hdel; cbn in Hdel;
    by apply bool_decide_eq_false in Hdel.
Qed.

(** X14.  When [validateAndAdjust] accepts a configuration against a
    storage scheme, the date separator is empty or one that
    [DateSeparator.FromString] reads, the CSV configuration passes
    [CSVConfig.validateAndAdjust], and the file index width of the result
    lies in [6, 20]; date separator and CSV configuration are left as they
    were. *)
Theorem validateAndAdjust_storage_checks (u : URL) (s s' : SinkConfig)
    (next next' : N) :
  IsStorageScheme (Scheme u) = true ->
  IsMySQLCompatibleScheme (Scheme u) = false ->
  validateAndAdjust (Some u) s next = (Return None, s', next') ->
  (GetOrZero (DateSeparator_ s) = ""
   \/ exists d, DateSeparator_FromString (GetOrZero (DateSeparator_ s)) = inl d) /\
  CSVConfig_validateAndAdjust (CSVConfig_ s) = None /\
  in_range (GetOrZero (FileIndexWidth s')) /\
  DateSeparator_ s' = DateSeparator_ s /\
  CSVConfig_ s' = CSVConfig_ s.
Proof.
  intros Hstorage Hmysql Hv.
  destruct (validateAndAdjust_accepted u s s' next next' Hmysql Hv)
    as (_ & _ & _ & _ & Hs'). cbv zeta in Hs'. rewrite Hstorage in Hs'.
  destruct Hs' as [n3 Hs'].
  destruct (reconciled_fields u s next) as (Hr & Hc & He & Ht & Hd & Hw & Ho).
  cbv zeta in Hr, Hc, He, Ht, Hd, Hw, Ho.
  set (s1 := config_of (applyParameterBySinkURI (Some u) s next)) in *.
  pose proof (validateStorage_accepted _ _ _ _ Hs') as (Hdate & Hcsv & Hrange).
  match type of Hs' with validateStorage ?s3 ?n3 = _ =>
    destruct (validateStorage_config s3 n3) as [w Hcfg] end.
  rewrite Hs' in Hcfg. unfold config_of in Hcfg. cbn in Hcfg.
  destruct (Terminator s); cbn in Hdate, Hcsv; rewrite Hd in Hdate;
    rewrite Hc in Hcsv; subst s'; cbn; rewrite ?Hd, ?Hc; done.
Qed.

Lemma reconcile_storage_fields (c : option CSVConfig) (d : ptr string) (w : ptr Z)
    (u : URL) (s : SinkConfig) (next : N) :
  reconcile u (set_CSVConfig c (set_DateSeparator d (set_FileIndexWidth w s))) next =
  (set_CSVConfig c (set_DateSeparator d (set_FileIndexWidth w (reconcile u s next).1.1.1)),
   (reconcile u s next).1.1.2,
   inURI_of (reconcile u s next), inFile_of (reconcile u s next)).
Proof.
  unfold reconcile, inURI_of, inFile_of.
  repeat (first [case_decide | progress cbn]); try reflexivity; tauto.
Qed.

(** X15.  Against a scheme that is not a storage scheme, validation does
    not look at the storage fields: the outcome is the same whatever the CSV
    configuration, the date separator and the file index width are, and all
    three are left as they were. *)
Theorem validateAndAdjust_ignores_storage_fields (u : URL) (s : SinkConfig)
    (next : N) (c : option CSVConfig) (d : ptr string) (w : ptr Z) :
  IsStorageScheme (Scheme u) = false ->
  outcome_of (validateAndAdjust (Some u)
                (set_CSVConfig c (set_DateSeparator d (set_FileIndexWidth w s))) next)
  = outcome_of (validateAndAdjust (Some u) s next) /\
  FileIndexWidth (config_of (validateAndAdjust (Some u) s next)) = FileIndexWidth s /\
  DateSeparator_ (config_of (validateAndAdjust (Some u) s next)) = DateSeparator_ s /\
  CSVConfig_ (config_of (validateAndAdjust (Some u) s next)) = CSVConfig_ s.
Proof.
  intros Hstorage.
  rewrite !validateAndAdjust_unfold. cbv zeta.
  rewrite !applyParameterBySinkURI_unfold, reconcile_storage_fields.
  unfold config_of, next_of, outcome_of, inURI_of, inFile_of. cbn [fst snd].
  destruct (reconcile_config u s next) as (_ & _ & Hr & Hc & He & Ht & Hd & Hw & Ho).
  cbv zeta in Hr, Hc, He, Ht, Hd, Hw, Ho.
  set (s1 := (reconcile u s next).1.1.1) in *.
  set (n1 := (reconcile u s next).1.1.2) in *.
  rewrite Hstorage.
  assert (validateAgainstScheme u
            (set_CSVConfig c (set_DateSeparator d (set_FileIndexWidth w s1)))
          = validateAgainstScheme u s1) as -> by done.
  destruct (validateAgainstScheme u s1) as [err|]; [by cbn|].
  destruct (IsMySQLCompatibleScheme _); [by cbn|].
  cbn [DispatchRules set_CSVConfig set_DateSeparator set_FileIndexWidth
       EncoderConcurrency Terminator DeleteOnlyOutputHandleKeyColumns Protocol].
  destruct (adjustDispatchRules (DispatchRules s1)) as [rules [err|]]; [by cbn|].
  cbn [fst snd].
  destruct (_ <? 0); [by cbn|].
  destruct (_ && _); [by destruct (Terminator s1); cbn|].
  destruct (Terminator s1); cbn; done.
Qed.

Lemma validateAgainstScheme_kinds (u : URL) (s : SinkConfig) (err : error) :
  validateAgainstScheme u s = Some err ->
  kind err = ErrSinkURIInvalid \/
  exists p, (ParseSinkProtocolFromString p).2 = Some err.
Proof.
  unfold validateAgainstScheme.
  destruct (AtomicityLevel_validate _ _) as [e|] eqn:Ha.
  - intros [= <-]. left. by eapply AtomicityLevel_validate_kind.
  - destruct (_ || _); [eauto|].
    destruct (_ && _); [|done]. intros [= <-]. by left.
Qed.

Lemma CSVConfig_validateAndAdjust_kind (c : option CSVConfig) (err : error) :
  CSVConfig_validateAndAdjust c = Some err -> kind err = ErrSinkInvalidConfig.
Proof.
  destruct c as [c|]; [|done]. unfold CSVConfig_validateAndAdjust.
  repeat (match goal with |- context [if ?b then _ else _] => destruct b end;
          [by intros [= <-]|]).
  by intros [= <-].
Qed.

Lemma validateStorage_kind (s : SinkConfig) (next : N) (err : error) :
  outcome_of (validateStorage s next) = Return (Some err) ->
  kind err = ErrSinkInvalidConfig.
Proof.
  unfold validateStorage, outcome_of.
  destruct (if (0 <? String.length _)%nat then _ else _) as [e|] eqn:Hd.
  - cbn. intros [= <-].
    destruct (0 <? _)%nat; [|done].
    destruct (DateSeparator_FromString _); [done|]. by injection Hd as <-.
  - destruct (_ || _); cbn; intros [= Hc]; by apply CSVConfig_validateAndAdjust_kind in Hc.
Qed.

(** X10.  On a nil URI [validateAndAdjust] panics, whatever the
    configuration: [validateAndAdjustSinkURI] and [applyParameterBySinkURI]
    return nil for the nil URI and leave the configuration alone, and
    [validateAndAdjust] then reads [sinkURI.Scheme], so the later test
    [sinkURI != nil] never sees a nil URI.  On a URI that is not nil, and a
    configuration whose receiver and dispatch rules are not nil pointers
    (the configurations the model holds; see [adjustDispatchRules]), it
    returns, and an error it returns is an [ErrSinkURIInvalid], an
    [ErrSinkInvalidConfig] or an error of [ParseSinkProtocolFromString]. *)
Theorem validateAndAdjust_outcomes (sinkURI : option URL) (s : SinkConfig)
    (next : N) :
  (sinkURI = None ->
   outcome_of (validateAndAdjust sinkURI s next) = Panic /\
   validateAndAdjustSinkURI sinkURI s next = (Return None, s, next) /\
   applyParameterBySinkURI sinkURI s next = (Return None, s, next) /\
   config_of (validateAndAdjust sinkURI s next) = s) /\
  (forall u, sinkURI = Some u ->
     exists err, outcome_of (validateAndAdjust sinkURI s next) = Return err) /\
  (forall err,
     outcome_of (validateAndAdjust sinkURI s next) = Return (Some err) ->
     kind err = ErrSinkURIInvalid \/ kind err = ErrSinkInvalidConfig \/
     exists p, (ParseSinkProtocolFromString p).2 = Some err).
Proof.
  destruct sinkURI as [u|].
  - rewrite validateAndAdjust_unfold. cbv zeta.
    set (s1 := config_of _). set (n1 := next_of _).
    split; [done|split].
    + intros _ _.
      destruct (validateAgainstScheme u s1) as [err|]; [by eexists|].
      destruct (IsMySQLCompatibleScheme _); [by eexists|].
      destruct (adjustDispatchRules (DispatchRules s1)).2 as [err|]; [by eexists|].
      destruct (_ <? 0); [by eexists|].
      destruct (_ && _); [by eexists|].
      destruct (IsStorageScheme _); [|by eexists].
      unfold validateStorage, outcome_of.
      destruct (if (0 <? String.length _)%nat then _ else _) as [e|]; [by eexists|].
      destruct (_ || _); by eexists.
    + intros err.
      destruct (validateAgainstScheme u s1) as [e|] eqn:Hs.
      { unfold outcome_of. cbn. intros [= <-].
        apply validateAgainstScheme_kinds in Hs as [?|?]; eauto. }
      destruct (IsMySQLCompatibleScheme _); [done|].
      destruct (adjustDispatchRules (DispatchRules s1)) as [rules [e|]] eqn:Hr.
      { unfold outcome_of. cbn. intros [= <-]. right. left.
        clear -Hr. revert rules Hr.
        induction (DispatchRules s1) as [|rule l IH]; cbn; [done|].
        intros rules. destruct (_ && _); [by intros [= _ <-]|].
        destruct (adjustDispatchRules l) as [rest e']. intros [= _ ->]. eauto. }
      cbn [fst snd].
      destruct (_ <? 0); [unfold outcome_of; cbn; intros [= <-]; eauto|].
      destruct (_ && _); [unfold outcome_of; cbn; intros [= <-]; eauto|].
      destruct (IsStorageScheme _); [|done].
      intros Hv. apply validateStorage_kind in Hv. eauto.
  - split; [done|]. split; [done|]. done.
Qed.

(** X11.  Against a MySQL-compatible scheme [validateAndAdjust] is
    [validateAndAdjustSinkURI] and no more: dispatch rules, terminator and
    file index width are left alone.  When the scheme is neither a message
    queue nor a storage scheme, a protocol in the configuration or in the
    URI is rejected with [ErrSinkURIInvalid]. *)
Theorem validateAndAdjust_MySQL (u : URL) (s : SinkConfig) (next : N) :
  IsMySQLCompatibleScheme (Scheme u) = true ->
  validateAndAdjust (Some u) s next = validateAndAdjustSinkURI (Some u) s next /\
  DispatchRules (config_of (validateAndAdjust (Some u) s next)) = DispatchRules s /\
  Terminator (config_of (validateAndAdjust (Some u) s next)) = Terminator s /\
  FileIndexWidth (config_of (validateAndAdjust (Some u) s next)) = FileIndexWidth s /\
  (IsMQScheme (Scheme u) = false -> IsStorageScheme (Scheme u) = false ->
   Protocol s <> None \/ Values_Get ProtocolKey (Query u) <> "" ->
   exists err,
     outcome_of (validateAndAdjust (Some u) s next) = Return (Some err) /\
     kind err = ErrSinkURIInvalid).
Proof.
  intros Hmysql.
  rewrite validateAndAdjust_unfold, validateAndAdjustSinkURI_unfold. cbv zeta.
  rewrite Hmysql.
  destruct (reconciled_fields u s next) as (Hr & Hc & He & Ht & Hd & Hw & Ho).
  cbv zeta in Hr, Hc, He, Ht, Hd, Hw, Ho.
  assert (Protocol s <> None \/ Values_Get ProtocolKey (Query u) <> "" ->
          Protocol (config_of (applyParameterBySinkURI (Some u) s next)) <> None)
    as Hproto.
  { rewrite applyParameterBySinkURI_unfold. unfold config_of. cbn [fst snd].
    destruct (reconcile_config u s next) as (_ & Hp & _). cbv zeta in Hp.
    destruct (decide (Values_Get ProtocolKey (Query u) = "")) as [Hq|Hq].
    - rewrite Hp. intros [?|?]; done.
    - destruct Hp as [a ->]. done. }
  set (s1 := config_of (applyParameterBySinkURI (Some u) s next)) in *.
  set (n1 := next_of (applyParameterBySinkURI (Some u) s next)) in *.
  split; [by destruct (validateAgainstScheme u s1)|].
  split; [by destruct (validateAgainstScheme u s1)|].
  split; [by destruct (validateAgainstScheme u s1)|].
  split; [by destruct (validateAgainstScheme u s1)|].
  intros Hmq Hst Hp. apply Hproto in Hp.
  unfold validateAgainstScheme. rewrite Hmq, Hst, Hmysql. cbn.
  destruct (AtomicityLevel_validate _ _) as [e|] eqn:Ha.
  - exists e. split; [done|]. by eapply AtomicityLevel_validate_kind.
  - rewrite bool_decide_eq_false_2 by done. cbn. eauto.
Qed.

End SinkConfig.

(** *** Large messages *)

Section LargeMessageHandle.
Context {X : Externals}.
Variables ProtocolOpen ProtocolCanalJSON : SinkProtocol.

(** X20.  [LargeMessageHandleConfig.Validate] accepts a configuration
    exactly when the option is "none", or the protocol is open, or
    canal-json with the TiDB extension enabled, and, for the option
    "claim-check", the storage URI is not empty and the compression is
    empty, snappy or lz4 in any case of letters.  Every error is an
    [ErrInvalidReplicaConfig]; a nil receiver panics. *)
Theorem Validate_accepts (c : LargeMessageHandleConfig) (protocol : SinkProtocol)
    (enableTiDBExtension : bool) :
  (Validate ProtocolOpen ProtocolCanalJSON (Some c) protocol enableTiDBExtension = Return None <->
     LargeMessageHandleOption c = LargeMessageHandleOptionNone \/
     ((protocol = ProtocolOpen \/
       (protocol = ProtocolCanalJSON /\ enableTiDBExtension = true)) /\
      (LargeMessageHandleOption c = LargeMessageHandleOptionClaimCheck ->
       ClaimCheckStorageURI c <> "" /\
       (ClaimCheckCompression c = "" \/
        ToLower (ClaimCheckCompression c) = CompressionSnappy \/
        ToLower (ClaimCheckCompression c) = CompressionLZ4)))) /\
  (exists err, Validate ProtocolOpen ProtocolCanalJSON (Some c) protocol enableTiDBExtension = Return err /\
     (err = None \/ Equal ErrInvalidReplicaConfig err = true)) /\
  Validate ProtocolOpen ProtocolCanalJSON None protocol enableTiDBExtension = Panic.
Proof.
  split; [|split; [|done]].
  - unfold Validate.
    destruct (decide (LargeMessageHandleOption c = LargeMessageHandleOptionNone))
      as [Hnone|Hnone]; [split; [by left|done]|].
    destruct (decide (protocol = ProtocolOpen)) as [Ho|Ho].
    + destruct (decide (LargeMessageHandleOption c = LargeMessageHandleOptionClaimCheck))
        as [Hcc|Hcc]; [|split; [intros _; right; split; [by left|done]|done]].
      destruct (decide (ClaimCheckStorageURI c = "")) as [Hu|Hu].
      { split; [done|]. intros [?|[_ Hx]]; [done|]. by destruct (Hx Hcc). }
      destruct (decide (ClaimCheckCompression c <> "")) as [Hz|Hz].
      * destruct (decide (_ \/ _)) as [Hk|Hk].
        -- split; [|done]. intros _. right. split; [by left|]. intros _.
           split; [done|]. by right.
        -- split; [done|]. intros [?|[_ Hx]]; [done|].
           destruct (Hx Hcc) as [_ [?|?]]; [done|]. by destruct Hk.
      * apply dec_stable in Hz. split; [|done]. intros _. right.
        split; [by left|]. intros _. split; [done|]. by left.
    + destruct (decide (protocol = ProtocolCanalJSON)) as [Hj|Hj].
      * destruct enableTiDBExtension; cbn.
        -- destruct (decide (LargeMessageHandleOption c = LargeMessageHandleOptionClaimCheck))
             as [Hcc|Hcc]; [|split; [intros _; right; split; [by right|done]|done]].
           destruct (decide (ClaimCheckStorageURI c = "")) as [Hu|Hu].
           { split; [done|]. intros [?|[_ Hx]]; [done|]. by destruct (Hx Hcc). }
           destruct (decide (ClaimCheckCompression c <> "")) as [Hz|Hz].
           ++ destruct (decide (_ \/ _)) as [Hk|Hk].
              ** split; [|done]. intros _. right. split; [by right|]. intros _.
                 split; [done|]. by right.
              ** split; [done|]. intros [?|[_ Hx]]; [done|].
                 destruct (Hx Hcc) as [_ [?|?]]; [done|]. by destruct Hk.
           ++ apply dec_stable in Hz. split; [|done]. intros _. right.
              split; [by right|]. intros _. split; [done|]. by left.
        -- split; [done|]. intros [?|[[?|[_ ?]] _]]; done.
      * split; [done|]. intros [?|[[?|[? _]] _]]; done.
  - unfold Validate.
    repeat (match goal with |- context [if ?b then _ else _] => destruct b end;
            cbn; try (eexists; split; [reflexivity|]; (by left) || (by right))).
Qed.

(** X21.  The default configuration is valid for every protocol and is in
    the mode Disabled only.  Its compression is "none", which [Validate]
    does not accept under claim-check: the default switched to claim-check
    with any storage URI is rejected for every protocol. *)
Theorem NewDefaultLargeMessageHandleConfig_valid (protocol : SinkProtocol)
    (enableTiDBExtension : bool) (storageURI : string) :
  Validate ProtocolOpen ProtocolCanalJSON (Some NewDefaultLargeMessageHandleConfig)
    protocol enableTiDBExtension = Return None /\
  Disabled (Some NewDefaultLargeMessageHandleConfig) = true /\
  EnableClaimCheck (Some NewDefaultLargeMessageHandleConfig) = false /\
  HandleKeyOnly (Some NewDefaultLargeMessageHandleConfig) = false /\
  (exists err,
     Validate ProtocolOpen ProtocolCanalJSON
       (Some {| LargeMessageHandleOption := LargeMessageHandleOptionClaimCheck;
                ClaimCheckStorageURI := storageURI;
                ClaimCheckCompression :=
                  ClaimCheckCompression NewDefaultLargeMessageHandleConfig |})
       protocol enableTiDBExtension = Return (Some err) /\
     kind err = ErrInvalidReplicaConfig).
Proof.
  split; [done|]. split; [done|]. split; [done|]. split; [done|].
  unfold Validate. cbn.
  rewrite decide_False by done.
  destruct (decide (protocol = ProtocolOpen));
    [|destruct (decide (protocol = ProtocolCanalJSON));
      [destruct enableTiDBExtension|]]; cbn; eauto;
    rewrite decide_True by done;
    (destruct (decide (storageURI = "")); [eauto|]);
    rewrite decide_True by done; rewrite decide_False by (intros [?|?]; done);
    eauto.
Qed.

(** X22.  [Validate] does not check that the option is a known one: with
    the protocol open, an option that is none of "none", "claim-check" and
    "handle-key-only" is accepted, and then none of [Disabled],
    [EnableClaimCheck] and [HandleKeyOnly] holds. *)
Theorem Validate_unknown_option (c : LargeMessageHandleConfig)
    (enableTiDBExtension : bool) :
  LargeMessageHandleOption c <> LargeMessageHandleOptionNone ->
  LargeMessageHandleOption c <> LargeMessageHandleOptionClaimCheck ->
  LargeMessageHandleOption c <> LargeMessageHandleOptionHandleKeyOnly ->
  Validate ProtocolOpen ProtocolCanalJSON (Some c) ProtocolOpen enableTiDBExtension = Return None /\
  Disabled (Some c) = false /\
  EnableClaimCheck (Some c) = false /\
  HandleKeyOnly (Some c) = false.
Proof.
  intros Hn Hc Hk. unfold Validate, Disabled, EnableClaimCheck, HandleKeyOnly.
  rewrite (decide_False (P := LargeMessageHandleOption c = LargeMessageHandleOptionNone))
    by done.
  rewrite (decide_True (P := ProtocolOpen = ProtocolOpen)) by done.
  rewrite (decide_False
             (P := LargeMessageHandleOption c = LargeMessageHandleOptionClaimCheck))
    by done.
  rewrite !bool_decide_eq_false_2 by done. done.
Qed.

End LargeMessageHandle.

(** *** Worked examples *)

Import samples.

(** X11 on a MySQL URI that names a protocol. *)
Lemma validateAndAdjust_MySQL_witness :
  IsMySQLCompatibleScheme (Scheme mysql_open) = true /\
  validateAndAdjust (Some mysql_open) empty 100
  = validateAndAdjustSinkURI (Some mysql_open) empty 100 /\
  exists err,
    outcome_of (validateAndAdjust (Some mysql_open) empty 100) = Return (Some err) /\
    kind err = ErrSinkURIInvalid.
Proof.
  assert (IsMySQLCompatibleScheme (Scheme mysql_open) = true) as Hmysql by reflexivity.
  destruct (validateAndAdjust_MySQL mysql_open empty 100 Hmysql)
    as (Heq & _ & _ & _ & Hrejected).
  split; [exact Hmysql|]. split; [exact Heq|].
  apply Hrejected; [reflexivity|reflexivity|]. right. by vm_compute.
Defined.

(** X12 on a configuration whose one rule names a dispatcher. *)
Lemma validateAndAdjust_dispatch_rules_witness :
  let s' := mkSinkConfig None (Some (mkCell 100%N "open"))
              [mkDispatchRule ["test.*"] "" "ts" "topic"] None None
              (Some (mkCell 101%N CRLF)) None None None in
  IsMySQLCompatibleScheme (Scheme kafka_open) = false /\
  validateAndAdjust (Some kafka_open) with_dispatcher 100 = (Return None, s', 102%N) /\
  Forall2 normalised (DispatchRules with_dispatcher) (DispatchRules s') /\
  adjustDispatchRules (DispatchRules s') = (DispatchRules s', None).
Proof.
  intros s'.
  assert (IsMySQLCompatibleScheme (Scheme kafka_open) = false) as Hmysql by reflexivity.
  assert (validateAndAdjust (Some kafka_open) with_dispatcher 100
          = (Return None, s', 102%N)) as Hv by reflexivity.
  destruct (validateAndAdjust_dispatch_rules kafka_open with_dispatcher s' 100 102
              Hmysql Hv) as (_ & Hnormal & Hagain).
  done.
Defined.

(** X13 on a configuration with nothing set. *)
Lemma validateAndAdjust_accepted_settings_witness :
  let s' := mkSinkConfig None (Some (mkCell 100%N "open")) [] None None
              (Some (mkCell 101%N CRLF)) None None None in
  IsMySQLCompatibleScheme (Scheme kafka_open) = false /\
  validateAndAdjust (Some kafka_open) empty 100 = (Return None, s', 102%N) /\
  (exists a, Terminator s' = Some (mkCell a CRLF)) /\
  0 <= GetOrZero (EncoderConcurrency s').
Proof.
  intros s'.
  assert (IsMySQLCompatibleScheme (Scheme kafka_open) = false) as Hmysql by reflexivity.
  assert (validateAndAdjust (Some kafka_open) empty 100
          = (Return None, s', 102%N)) as Hv by reflexivity.
  destruct (validateAndAdjust_accepted_settings kafka_open empty s' 100 102
              Hmysql Hv) as (Hterminator & _ & Hencoder & _).
  done.
Defined.

(** X14 on a configuration with width 3 and a URI of the scheme s3. *)
Lemma validateAndAdjust_storage_checks_witness :
  IsStorageScheme (Scheme s3_csv) = true /\
  IsMySQLCompatibleScheme (Scheme s3_csv) = false /\
  validateAndAdjust (Some s3_csv) width3 100 = (Return None, width3_adjusted, 103%N) /\
  CSVConfig_validateAndAdjust (CSVConfig_ width3) = None /\
  in_range (GetOrZero (FileIndexWidth width3_adjusted)).
Proof.
  assert (IsStorageScheme (Scheme s3_csv) = true) as Hstorage by reflexivity.
  assert (IsMySQLCompatibleScheme (Scheme s3_csv) = false) as Hmysql by reflexivity.
  assert (validateAndAdjust (Some s3_csv) width3 100
          = (Return None, width3_adjusted, 103%N)) as Hv by reflexivity.
  destruct (validateAndAdjust_storage_checks s3_csv width3 width3_adjusted 100 103
              Hstorage Hmysql Hv) as (_ & Hcsv & Hrange & _).
  done.
Defined.

(** X15 on a Kafka URI: a configuration whose CSV configuration, date
    separator and width a storage sink would reject or adjust is accepted. *)
Lemma validateAndAdjust_ignores_storage_fields_witness :
  let s := set_CSVConfig (Some bad_csv)
             (set_DateSeparator (Some (mkCell 1%N "week"))
                (set_FileIndexWidth (Some (mkCell 2%N 3)) empty)) in
  IsStorageScheme (Scheme kafka_open) = false /\
  CSVConfig_validateAndAdjust (Some bad_csv)
  = Some (WrapError ErrSinkInvalidConfig "csv config delimiter cannot be empty") /\
  outcome_of (validateAndAdjust (Some kafka_open) s 100) = Return None /\
  FileIndexWidth (config_of (validateAndAdjust (Some kafka_open) s 100))
  = Some (mkCell 2%N 3).
Proof.
  intros s.
  assert (IsStorageScheme (Scheme kafka_open) = false) as Hstorage by reflexivity.
  destruct (validateAndAdjust_ignores_storage_fields kafka_open empty 100
              (Some bad_csv) (Some (mkCell 1%N "week")) (Some (mkCell 2%N 3)) Hstorage)
    as (Hsame & _).
  destruct (validateAndAdjust_ignores_storage_fields kafka_open s 100
              None None None Hstorage) as (_ & Hwidth & _).
  split; [exact Hstorage|]. split; [reflexivity|].
  split; [unfold s; rewrite Hsame; reflexivity|exact Hwidth].
Defined.

(** X19 on a map with two entries. *)
Lemma getErrMsg_joins_witness :
  let cfgIn : gmap string string :=
    <["transaction-atomicity" := "table"]> {[ "protocol" := "open" ]} in
  cfgIn <> ∅ /\
  getErrMsg cfgIn = "transaction-atomicity=table, protocol=open".
Proof.
  intros cfgIn.
  assert (cfgIn <> ∅) as Hne by apply insert_non_empty.
  split; [exact Hne|]. rewrite (getErrMsg_joins cfgIn Hne). by vm_compute.
Defined.

(** X22 on the option "compress". *)
Lemma Validate_unknown_option_witness :
  LargeMessageHandleOption unknown_option <> LargeMessageHandleOptionNone /\
  LargeMessageHandleOption unknown_option <> LargeMessageHandleOptionClaimCheck /\
  LargeMessageHandleOption unknown_option <> LargeMessageHandleOptionHandleKeyOnly /\
  Validate Open CanalJSON (Some unknown_option) Open false = Return None /\
  Disabled (Some unknown_option) = false /\
  EnableClaimCheck (Some unknown_option) = false /\
  HandleKeyOnly (Some unknown_option) = false.
Proof.
  assert (LargeMessageHandleOption unknown_option <> LargeMessageHandleOptionNone)
    as Hnone by done.
  assert (LargeMessageHandleOption unknown_option <> LargeMessageHandleOptionClaimCheck)
    as Hclaim by done.
  assert (LargeMessageHandleOption unknown_option
          <> LargeMessageHandleOptionHandleKeyOnly) as Hkey by done.
  split; [exact Hnone|]. split; [exact Hclaim|]. split; [exact Hkey|].
  exact (Validate_unknown_option Open CanalJSON unknown_option false Hnone Hclaim Hkey).
Defined.

End config_behaviour.
